(** * minishell: the variable store (vars.c) and the builtins (builtins.c)

    A shallow embedding of the two C sources.  C strings are [string]s (the
    terminating NUL is left implicit and read back by [char_at]), nullable
    [char *] arguments are [option string], [int]/[long] are [Z], the linked
    list [var_list] is a [list var] whose head is the most recent record, and
    the process environment is a finite map.  The C functions mutate process
    globals, so each one is a state transformer over [shell].  The [gprintf]
    calls, which only trace, are left out. *)

From Stdlib Require Import ZArith Ascii String List Bool Lia.
From stdpp Require Import gmap strings list fin_maps.

Local Open Scope string_scope.
Local Open Scope Z_scope.

(** ** <ctype.h> in the "C" locale *)

Module Ctype.

Definition char_code (c : ascii) : Z := Z.of_N (N_of_ascii c).

Definition in_range (lo hi : Z) (c : ascii) : bool :=
  (lo <=? char_code c) && (char_code c <=? hi).

Definition isupper (c : ascii) : bool := in_range 65 90 c.
Definition islower (c : ascii) : bool := in_range 97 122 c.
Definition isdigit (c : ascii) : bool := in_range 48 57 c.
Definition isalpha (c : ascii) : bool := isupper c || islower c.
Definition isalnum (c : ascii) : bool := isalpha c || isdigit c.
(* space, \t \n \v \f \r *)
Definition isspace (c : ascii) : bool := (char_code c =? 32) || in_range 9 13 c.

Definition NUL : ascii := Ascii.zero.

End Ctype.
Import Ctype.

(** ** C strings *)

(** [s[i]]: the byte at offset [i]; offset [strlen s] holds the terminator. *)
Definition char_at (s : string) (i : nat) : ascii :=
  match String.get i s with
  | Some c => c
  | None => NUL
  end.

Definition strlen (s : string) : nat := String.length s.

(** ** vars.c: name validation *)

(** The [for] loop of [is_valid_varname]: [i] is the loop index and [k] the
    number of iterations left, [strlen name - i]. *)
Fixpoint is_valid_varname_loop (name : string) (i k : nat) : Z :=
  match k with
  | O => 1
  | S k' =>
      let letter := char_at name i in
      if negb (isalnum letter) && negb (Ascii.eqb letter "_") then 0
      else is_valid_varname_loop name (S i) k'
  end.

Definition is_valid_varname (name : string) : Z :=
  if negb (isalpha (char_at name 0)) && negb (Ascii.eqb (char_at name 0) "_")
  then 0
  else is_valid_varname_loop name 1 (strlen name - 1).

Definition vars_is_valid_varname (name : string) : Z := is_valid_varname name.

(** ** Process state *)

(** [struct var]; the [next] link is the tail of the list holding the record.
    A null [value] is [None]. *)
Record var := Var {
  var_name : string;
  var_export : bool;
  var_value : option string;
}.

(** [struct job] of jobs.h, as far as the builtins read it. *)
Record job := Job { jid : Z; pgid : Z }.

(** Everything the two files read or write: their own globals and the part of
    the process they reach through libc.

    - [oom] decides the calls that can run out of memory ([malloc], [strdup],
      [setenv]): each call takes the head, [true] meaning the call fails; an
      empty list means memory never runs out.
    - [fs] is the file system as [chdir] sees it: [(d, p)] is mapped to the
      directory that path [p] names from working directory [d].
    - [fd_log] lists the [dprintf] calls, [(descriptor, text)], oldest first.
    - [sig_log] lists the [kill] calls, [(pid, signal)], oldest first. *)
Record shell := Shell {
  var_list : list var;
  environ : gmap string string;
  errno : Z;
  params_status : Z;
  joblist : list job;
  cwd : string;
  fs : gmap (string * string) string;
  oom : list bool;
  fd_log : list (Z * string);
  sig_log : list (Z * Z);
}.

Definition with_var_list (l : list var) (st : shell) : shell :=
  Shell l (environ st) (errno st) (params_status st) (joblist st) (cwd st)
        (fs st) (oom st) (fd_log st) (sig_log st).
Definition with_environ (e : gmap string string) (st : shell) : shell :=
  Shell (var_list st) e (errno st) (params_status st) (joblist st) (cwd st)
        (fs st) (oom st) (fd_log st) (sig_log st).
Definition with_errno (e : Z) (st : shell) : shell :=
  Shell (var_list st) (environ st) e (params_status st) (joblist st) (cwd st)
        (fs st) (oom st) (fd_log st) (sig_log st).
Definition with_params_status (n : Z) (st : shell) : shell :=
  Shell (var_list st) (environ st) (errno st) n (joblist st) (cwd st)
        (fs st) (oom st) (fd_log st) (sig_log st).
Definition with_cwd (d : string) (st : shell) : shell :=
  Shell (var_list st) (environ st) (errno st) (params_status st) (joblist st) d
        (fs st) (oom st) (fd_log st) (sig_log st).
Definition with_oom (o : list bool) (st : shell) : shell :=
  Shell (var_list st) (environ st) (errno st) (params_status st) (joblist st)
        (cwd st) (fs st) o (fd_log st) (sig_log st).
Definition with_fd_log (l : list (Z * string)) (st : shell) : shell :=
  Shell (var_list st) (environ st) (errno st) (params_status st) (joblist st)
        (cwd st) (fs st) (oom st) l (sig_log st).
Definition with_sig_log (l : list (Z * Z)) (st : shell) : shell :=
  Shell (var_list st) (environ st) (errno st) (params_status st) (joblist st)
        (cwd st) (fs st) (oom st) (fd_log st) l.

(** A C function over the process state. *)
Definition M (A : Type) : Type := shell -> A * shell.

Definition ret {A} (a : A) : M A := fun st => (a, st).
Definition bind {A B} (m : M A) (k : A -> M B) : M B :=
  fun st => let (a, st') := m st in k a st'.
Definition gets {A} (f : shell -> A) : M A := fun st => (f st, st).
Definition modify (f : shell -> shell) : M unit := fun st => (tt, f st).

Notation "'do' x <- m ; k" := (bind m (fun x => k))
  (at level 10, x name, m at level 100, k at level 200).
Notation "m ;; k" := (bind m (fun _ => k))
  (at level 100, k at level 200, right associativity).

(** ** libc *)

Definition EINVAL : Z := 22.
Definition ENOMEM : Z := 12.
Definition ENOENT : Z := 2.
Definition EFAULT : Z := 14.
Definition SIGCONT : Z := 18.
Definition STDERR_FILENO : Z := 2.
Definition INT_MAX : Z := 2147483647.
Definition LONG_MAX : Z := 9223372036854775807.
Definition LONG_MIN : Z := -9223372036854775808.

(** One allocation: [true] when memory is available. *)
Definition alloc : M bool := fun st =>
  match oom st with
  | [] => (true, st)
  | fails :: rest => (negb fails, with_oom rest st)
  end.

Definition malloc : M bool := fun st =>
  let (ok, st) := alloc st in
  if ok then (true, st) else (false, with_errno ENOMEM st).

Definition strdup (s : string) : M (option string) :=
  do ok <- malloc;
  ret (if ok then Some s else None).

Fixpoint has_char (c : ascii) (s : string) : bool :=
  match s with
  | EmptyString => false
  | String c' s' => Ascii.eqb c c' || has_char c s'
  end.

(** A name [setenv] and [unsetenv] reject with [EINVAL]. *)
Definition bad_env_name (name : string) : bool :=
  (strlen name =? 0)%nat || has_char "=" name.

Definition getenv (name : string) : M (option string) :=
  gets (fun st => environ st !! name).

Definition setenv (name value : string) (overwrite : Z) : M Z :=
  if bad_env_name name then modify (with_errno EINVAL) ;; ret (-1)
  else
    do ok <- malloc;
    if negb ok then ret (-1)
    else
      do old <- getenv name;
      (if (overwrite =? 0) && bool_decide (is_Some old) then ret tt
       else modify (fun st => with_environ (<[name := value]> (environ st)) st)) ;;
      ret 0.

Definition unsetenv (name : string) : M Z :=
  if bad_env_name name then modify (with_errno EINVAL) ;; ret (-1)
  else modify (fun st => with_environ (delete name (environ st)) st) ;; ret 0.

Definition chdir (path : option string) : M Z := fun st =>
  match path with
  | None => (-1, with_errno EFAULT st)
  | Some p =>
      match fs st !! (cwd st, p) with
      | Some d => (0, with_cwd d st)
      | None => (-1, with_errno ENOENT st)
      end
  end.

Definition kill (pid sig : Z) : M unit :=
  modify (fun st => with_sig_log (sig_log st ++ [(pid, sig)]) st).

Definition dprintf (fd : Z) (text : string) : M unit :=
  modify (fun st => with_fd_log (fd_log st ++ [(fd, text)]) st).

(** A diagnostic line: [text] and the newline that ends it. *)
Definition msg (text : string) : string :=
  (text ++ String (ascii_of_nat 10) EmptyString)%string.

Definition strerror (e : Z) : string :=
  if e =? EINVAL then "Invalid argument"
  else if e =? ENOMEM then "Cannot allocate memory"
  else if e =? ENOENT then "No such file or directory"
  else if e =? EFAULT then "Bad address"
  else "Unknown error".

(** *** strtol, base 10 *)

Fixpoint span (p : ascii -> bool) (s : string) : nat :=
  match s with
  | String c s' => if p c then S (span p s') else O
  | EmptyString => O
  end.

Fixpoint drop (n : nat) (s : string) : string :=
  match n, s with
  | S n', String _ s' => drop n' s'
  | _, _ => s
  end.

(** The number written by the leading digits of [s], after [acc]. *)
Fixpoint digits_value (acc : Z) (s : string) : Z :=
  match s with
  | String c s' =>
      if isdigit c then digits_value (acc * 10 + (char_code c - 48)) s' else acc
  | EmptyString => acc
  end.

Definition clamp_long (z : Z) : Z := Z.max LONG_MIN (Z.min LONG_MAX z).

(** [strtol(nptr, &endptr, 10)]: the value and the offset of [endptr] in
    [nptr].  White space, then an optional sign, then digits; with no digit
    nothing is converted and [endptr] is [nptr].  A value out of range is
    clamped to [LONG_MIN] or [LONG_MAX] (a 64-bit [long]); the [errno] it
    sets then is read by no caller here and is left out. *)
Definition strtol (nptr : string) : Z * nat :=
  let i := span isspace nptr in
  let s1 := drop i nptr in
  let neg := Ascii.eqb (char_at s1 0) "-" in
  let j := if neg || Ascii.eqb (char_at s1 0) "+" then 1%nat else 0%nat in
  let s2 := drop j s1 in
  let n := span isdigit s2 in
  match n with
  | O => (0, 0%nat)
  | S _ =>
      let v := digits_value 0 s2 in
      (clamp_long (if neg then - v else v), (i + j + n)%nat)
  end.

(** Conversion of a [long] to [int]: the low 32 bits, two's complement. *)
Definition int_of_long (z : Z) : Z := (z + 2 ^ 31) mod 2 ^ 32 - 2 ^ 31.

(** ** vars.c: the variable list *)

(** A [struct var *] into [var_list] is the position of the record. *)
Abbreviation var_ptr := nat (only parsing).

Definition null_var : var := Var "" false None.

(** [*v] *)
Definition deref (v : var_ptr) (st : shell) : var :=
  default null_var (var_list st !! v).

(** [v->export = b] and [v->value = x] *)
Definition store_export (v : var_ptr) (b : bool) : M unit :=
  modify (fun st =>
    with_var_list
      (alter (fun r => Var (var_name r) b (var_value r)) v (var_list st)) st).
Definition store_value (v : var_ptr) (x : option string) : M unit :=
  modify (fun st =>
    with_var_list
      (alter (fun r => Var (var_name r) (var_export r) x) v (var_list st)) st).

(** The search loop of [find_var] from record number [i] on. *)
Fixpoint find_var_from (name : string) (l : list var) (i : nat)
  : option var_ptr :=
  match l with
  | [] => None
  | r :: l' =>
      if String.eqb (var_name r) name then Some i
      else find_var_from name l' (S i)
  end.

Definition find_var (name : string) : M (option var_ptr) :=
  gets (fun st => find_var_from name (var_list st) 0).

Definition new_var (name : string) : M (option var_ptr) :=
  do ok <- malloc;
  if negb ok then ret None
  else
    do val <- getenv name;
    let export := match val with Some _ => true | None => false end in
    modify (fun st => with_var_list (Var name export None :: var_list st) st) ;;
    ret (Some 0%nat).

(** The unlinking loop of [remove_var]: the first record named [name] goes. *)
Fixpoint remove_var_from (name : string) (l : list var) : list var :=
  match l with
  | [] => []
  | r :: l' =>
      if String.eqb (var_name r) name then l'
      else r :: remove_var_from name l'
  end.

Definition remove_var (name : string) : M unit :=
  modify (fun st => with_var_list (remove_var_from name (var_list st)) st).

Definition ensure_var (name : string) : M (option var_ptr) :=
  do v <- find_var name;
  match v with
  | Some v => ret (Some v)
  | None => new_var name
  end.

(** ** vars.c: the public operations *)

Definition vars_set (name value : option string) : M Z :=
  match name, value with
  | Some name, Some value =>
      if is_valid_varname name =? 0 then modify (with_errno EINVAL) ;; ret (-1)
      else
        do v <- ensure_var name;
        match v with
        | None => ret (-1)
        | Some v =>
            do r <- gets (deref v);
            if var_export r then setenv name value 1
            else
              do dupval <- strdup value;
              match dupval with
              | None => ret (-1)
              | Some d => store_value v (Some d) ;; ret 0
              end
        end
  | _, _ => modify (with_errno EINVAL) ;; ret (-1)
  end.

Definition vars_get (name : option string) : M (option string) :=
  match name with
  | Some name =>
      if is_valid_varname name =? 0 then modify (with_errno EINVAL) ;; ret None
      else
        do v <- find_var name;
        do r <- gets (fun st => option_map (fun v => deref v st) v);
        match r with
        | Some r =>
            if negb (var_export r) then ret (var_value r) else getenv name
        | None => getenv name
        end
  | None => modify (with_errno EINVAL) ;; ret None
  end.

Definition vars_unset (name : option string) : M Z :=
  match name with
  | Some name =>
      if is_valid_varname name =? 0 then modify (with_errno EINVAL) ;; ret (-1)
      else remove_var name ;; unsetenv name
  | None => modify (with_errno EINVAL) ;; ret (-1)
  end.

Definition vars_export (name : option string) : M Z :=
  match name with
  | Some name =>
      if is_valid_varname name =? 0 then modify (with_errno EINVAL) ;; ret (-1)
      else
        do v <- ensure_var name;
        match v with
        | None => ret (-1)
        | Some v =>
            store_export v true ;;
            do r <- gets (deref v);
            match var_value r with
            | Some val =>
                do rc <- setenv (var_name r) val 1;
                if rc <? 0 then ret (-1) else ret 0
            | None => ret 0
            end
        end
  | None => modify (with_errno EINVAL) ;; ret (-1)
  end.

(** The variable-store interface as data, to run sequences of calls. *)
Inductive store_op :=
| OpSet (name value : option string)
| OpGet (name : option string)
| OpUnset (name : option string)
| OpExport (name : option string).

Definition run_op (o : store_op) (st : shell) : shell :=
  match o with
  | OpSet name value => snd (vars_set name value st)
  | OpGet name => snd (vars_get name st)
  | OpUnset name => snd (vars_unset name st)
  | OpExport name => snd (vars_export name st)
  end.

Definition run_ops (ops : list store_op) (st : shell) : shell :=
  fold_left (fun st o => run_op o st) ops st.

(** ** builtins.c *)

(** [struct builtin_redir]; the [next] link is the tail of the list. *)
Record builtin_redir := Redir { pseudofd : Z; realfd : Z }.

(** [struct command], as far as the builtins read it: [word_count] is the
    number of [words]. *)
Record command := Command { words : list string }.

Definition word_count (cmd : command) : Z := Z.of_nat (length (words cmd)).

(** [cmd->words[i]] *)
Definition word (cmd : command) (i : nat) : string :=
  default "" (words cmd !! i).

Fixpoint get_pseudo_fd (redir_list : list builtin_redir) (fd : Z) : Z :=
  match redir_list with
  | [] => fd
  | r :: next =>
      if realfd r =? fd then -1
      else if pseudofd r =? fd then realfd r
      else get_pseudo_fd next fd
  end.

(** What a builtin does to the process: it returns a status to its caller, or
    the process ends inside it. *)
Inductive outcome :=
| Returns (status : Z)
| Exits (code : Z).

Definition builtin_cd (cmd : command) (redir_list : list builtin_redir) : M Z :=
  do target_dir <-
    (if word_count cmd =? 1 then vars_get (Some "HOME") else ret None);
  if (word_count cmd =? 1) && negb (bool_decide (is_Some target_dir)) then
    dprintf (get_pseudo_fd redir_list STDERR_FILENO) (msg "cd: HOME not set") ;;
    ret (-1)
  else if word_count cmd >? 2 then
    dprintf (get_pseudo_fd redir_list STDERR_FILENO) (msg "cd: Too many arguments") ;;
    ret (-1)
  else if word_count cmd =? 2 then
    if vars_is_valid_varname (word cmd 1) =? 0 then ret (-1)
    else
      do rc <- vars_set (Some "PWD") (Some (word cmd 1));
      if negb (rc =? 0) then
        dprintf (get_pseudo_fd redir_list STDERR_FILENO) (msg "cd: Error setting PWD") ;;
        ret (-1)
      else
        do target_dir <- vars_get (Some "PWD");
        chdir target_dir ;;
        ret 0
  else
    do rc <- vars_set (Some "PWD") target_dir;
    if negb (rc =? 0) then
      dprintf (get_pseudo_fd redir_list STDERR_FILENO) (msg "cd: Error setting PWD") ;;
      ret (-1)
    else
      do target_dir <- vars_get (Some "PWD");
      chdir target_dir ;;
      ret 0.

(** Modelled from the spec: [bigshell_exit] of exit.h is not among the
    sources.  The spec has it terminate the process at once with the status
    recorded in the shared exit state, never returning. *)
Definition bigshell_exit : M outcome :=
  gets (fun st => Exits (params_status st)).

Definition builtin_exit (cmd : command) (redir_list : list builtin_redir)
  : M outcome :=
  if word_count cmd >? 2 then
    dprintf (get_pseudo_fd redir_list STDERR_FILENO) (msg "exit: Too many arguments") ;;
    ret (Returns (-1))
  else
    do parsed <-
      (if word_count cmd =? 2 then
         let '(val, endptr) := strtol (word cmd 1) in
         if negb (Ascii.eqb (char_at (word cmd 1) endptr) NUL)
            || Ascii.eqb (char_at (word cmd 1) endptr) (char_at (word cmd 1) 0)
         then ret None
         else ret (Some (int_of_long val))
       else do s <- gets params_status; ret (Some s));
    match parsed with
    | None =>
        dprintf (get_pseudo_fd redir_list STDERR_FILENO)
                (msg "exit: Non-numeric value given") ;;
        ret (Returns (-1))
    | Some exit_status =>
        modify (with_params_status exit_status) ;;
        do o <- bigshell_exit;
        match o with
        | Exits code => ret (Exits code)
        | Returns _ => ret (Returns (-1))
        end
    end.

(** Modelled from the spec: the job table of jobs.h is not among the sources.
    The spec has [list_jobs] give the jobs in table order and
    [resolve_process_group] give a job's process group or not-found, which
    the caller tests as a negative value. *)
Definition jobs_get_joblist_size : M nat := gets (fun st => length (joblist st)).
Definition jobs_get_joblist : M (list job) := gets joblist.
Definition jobs_get_pgid (job_id : Z) : M Z :=
  gets (fun st =>
    match List.find (fun j => jid j =? job_id) (joblist st) with
    | Some j => pgid j
    | None => -1
    end).

Section JobControl.

(** [wait_on_fg_job] of wait.h is not among the sources: any function of the
    process state will do. *)
Variable wait_on_fg_job : Z -> M Z.

(** The text [dprintf] makes of ["fg: `%s': %s\n"]. *)
Definition fg_bad_arg (arg : string) : string :=
  msg ("fg: `" ++ arg ++ "': " ++ strerror EINVAL).

Definition builtin_fg (cmd : command) (redir_list : list builtin_redir) : M Z :=
  do job_id <-
    (if word_count cmd =? 1 then
       do job_count <- jobs_get_joblist_size;
       if (job_count =? 0)%nat then
         dprintf (get_pseudo_fd redir_list STDERR_FILENO) (msg "No jobs") ;;
         ret None
       else
         do jobs <- jobs_get_joblist;
         ret (Some (jid (default (Job 0 0) (jobs !! 0%nat))))
     else if word_count cmd =? 2 then
       let '(val, endp) := strtol (word cmd 1) in
       if negb (Ascii.eqb (char_at (word cmd 1) endp) NUL)
          || Ascii.eqb (char_at (word cmd 1) 0) NUL
          || (val <? 0) || (val >? INT_MAX)
       then
         dprintf (get_pseudo_fd redir_list STDERR_FILENO)
                 (fg_bad_arg (word cmd 1)) ;;
         ret None
       else ret (Some val)
     else
       dprintf (get_pseudo_fd redir_list STDERR_FILENO)
               (fg_bad_arg (word cmd 2)) ;;
       ret None);
  match job_id with
  | None => ret (-1)
  | Some job_id =>
      do pgid <- jobs_get_pgid job_id;
      do failed <-
        (if pgid <? 0 then modify (with_errno EINVAL) ;; ret true
         else
           kill (- pgid) SIGCONT ;;
           do rc <- wait_on_fg_job job_id;
           ret (rc <? 0));
      if failed : bool then
        do e <- gets errno;
        dprintf (get_pseudo_fd redir_list STDERR_FILENO)
                ("fg: " ++ strerror e)%string ;;
        ret (-1)
      else ret 0
  end.

End JobControl.

(** ** Specification-side notions *)

(** Every character of [s] passes [p]. *)
Fixpoint string_forall (p : ascii -> bool) (s : string) : bool :=
  match s with
  | EmptyString => true
  | String c s' => p c && string_forall p s'
  end.

(** The first [n] characters of [s]. *)
Fixpoint take (n : nat) (s : string) : string :=
  match n, s with
  | S n', String c s' => String c (take n' s')
  | _, _ => EmptyString
  end.

(** A C string holds no NUL before its terminator. *)
Definition c_string (s : string) : Prop := has_char NUL s = false.

Definition letter (c : ascii) : Prop :=
  65 <= char_code c <= 90 \/ 97 <= char_code c <= 122.
Definition digit (c : ascii) : Prop := 48 <= char_code c <= 57.

Fixpoint name_rest (s : string) : Prop :=
  match s with
  | EmptyString => True
  | String c s' => (letter c \/ digit c \/ c = "_"%char) /\ name_rest s'
  end.

(** The name grammar in the spec's words: not empty, a letter or underscore
    first, then letters, digits and underscores. *)
Definition name_grammar (s : string) : Prop :=
  match s with
  | EmptyString => False
  | String c s' => (letter c \/ c = "_"%char) /\ name_rest s'
  end.

(** A base-10 integer in the spec's words, as [strtol] reads one: white space
    it skips, an optional sign, digits that are not empty, and nothing after
    them. *)
Definition base10_integer (s : string) : Prop :=
  exists ws sg ds : string,
    s = (ws ++ sg ++ ds)%string /\
    string_forall isspace ws = true /\
    (sg = "" \/ sg = "+" \/ sg = "-") /\
    ds <> "" /\
    string_forall isdigit ds = true.

(** The shim read as three tiers over the whole list: any pair whose real
    descriptor is [fd] first, then the first pair whose pseudo-descriptor is
    [fd], then [fd] itself. *)
Definition shim_three_tiers (redir_list : list builtin_redir) (fd : Z) : Z :=
  if existsb (fun r => realfd r =? fd) redir_list then -1
  else
    match List.find (fun r => pseudofd r =? fd) redir_list with
    | Some r => realfd r
    | None => fd
    end.

(** The tail shared by the two branches of [builtin_cd] that reach [chdir]. *)
Definition cd_tail (redir_list : list builtin_redir) (target : option string)
  : M Z :=
  do rc <- vars_set (Some "PWD") target;
  if negb (rc =? 0) then
    dprintf (get_pseudo_fd redir_list STDERR_FILENO)
            (msg "cd: Error setting PWD") ;;
    ret (-1)
  else
    do target_dir <- vars_get (Some "PWD");
    chdir target_dir ;;
    ret 0.

(** [builtin_cd] gets as far as [chdir]: the target is found, and [PWD] takes
    it, leaving state [s1]. *)
Definition cd_reaches_chdir (cmd : command) (st : shell)
    (target : string) (s1 : shell) : Prop :=
  (word_count cmd = 1 /\
   fst (vars_get (Some "HOME") st) = Some target /\
   vars_set (Some "PWD") (Some target) st = (0, s1))
  \/
  (word_count cmd = 2 /\
   vars_is_valid_varname (word cmd 1) <> 0 /\
   target = word cmd 1 /\
   vars_set (Some "PWD") (Some target) st = (0, s1)).

(** The names in the private table, in list order. *)
Definition names (st : shell) : list string := map var_name (var_list st).

(** A state to try things on: nothing set but the environment. *)
Definition boot (env : gmap string string) : shell :=
  Shell [] env 0 0 [] "/" ∅ [] [] [].

(** A state with job 1 in process group 100, and nothing else. *)
Definition one_job : shell :=
  Shell [] ∅ 0 0 [Job 1 100] "/" ∅ [] [] [].

(** ** The rest of vars.c and builtins.c *)

(** The loop of [vars_cleanup]: it unlinks and frees the head until the list
    is empty. *)
Fixpoint vars_cleanup_from (l : list var) : list var :=
  match l with
  | [] => []
  | _ :: next => vars_cleanup_from next
  end.

Definition vars_cleanup : M unit :=
  modify (fun st => with_var_list (vars_cleanup_from (var_list st)) st).

(** [strchr(s, c)] for a [c] other than NUL: the offset of the first [c]. *)
Fixpoint strchr (s : string) (c : ascii) : option nat :=
  match s with
  | EmptyString => None
  | String c' s' => if Ascii.eqb c' c then Some O else option_map S (strchr s' c)
  end.

(** [cmd->words[i]] overwritten in place. *)
Definition set_word (cmd : command) (i : nat) (w : string) : command :=
  Command (<[i := w]> (words cmd)).

(** The loop of [builtin_export] from word [i] on, [k] words being left.  The
    words are the caller's memory and the loop writes into them: a NUL goes
    over the [=] of the word at hand, which from then reads as the name, and
    the [=] comes back once the variable is set and exported.  The result
    carries the command as the loop leaves it. *)
Fixpoint builtin_export_loop (k i : nat) (cmd : command) : M (Z * command) :=
  match k with
  | O => ret (0, cmd)
  | S k' =>
      let w := word cmd i in
      match strchr w "=" with
      | Some v =>
          let cut := set_word cmd i (take v w) in
          do rc <- vars_set (Some (word cut i)) (Some (drop (S v) w));
          if rc <? 0 then ret (-1, cut)
          else
            do rc <- vars_export (Some (word cut i));
            if rc <? 0 then ret (-1, cut)
            else builtin_export_loop k' (S i) (set_word cut i w)
      | None =>
          do rc <- vars_export (Some w);
          if rc <? 0 then ret (-1, cmd)
          else builtin_export_loop k' (S i) cmd
      end
  end.

Definition builtin_export (cmd : command) (redir_list : list builtin_redir)
  : M (Z * command) :=
  builtin_export_loop (length (words cmd) - 1) 1 cmd.

(** The loop of [builtin_unset] over the words after the command name. *)
Fixpoint builtin_unset_loop (args : list string) : M unit :=
  match args with
  | [] => ret tt
  | w :: rest => vars_unset (Some w) ;; builtin_unset_loop rest
  end.


Definition builtin_bg (cmd : command) (redir_list : list builtin_redir) : M Z :=
  do job_id <-
    (if word_count cmd =? 1 then
       do job_count <- jobs_get_joblist_size;
       if (job_count =? 0)%nat then ret None
       else
         do jobs <- jobs_get_joblist;
         ret (Some (jid (default (Job 0 0) (jobs !! 0%nat))))
     else if word_count cmd =? 2 then
       let '(val, endp) := strtol (word cmd 1) in
       if negb (Ascii.eqb (char_at (word cmd 1) endp) NUL)
          || Ascii.eqb (char_at (word cmd 1) 0) NUL
          || (val <? 0) || (val >? INT_MAX)
       then
         dprintf (get_pseudo_fd redir_list STDERR_FILENO)
                 (fg_bad_arg (word cmd 1)) ;;
         ret None
       else ret (Some val)
     else
       dprintf (get_pseudo_fd redir_list STDERR_FILENO)
               (fg_bad_arg (word cmd 2)) ;;
       ret None);
  match job_id with
  | None => ret (-1)
  | Some job_id =>
      do pgid <- jobs_get_pgid job_id;
      if pgid <? 0 then
        modify (with_errno EINVAL) ;;
        do e <- gets errno;
        dprintf (get_pseudo_fd redir_list STDERR_FILENO)
                ("bg: " ++ strerror e)%string ;;
        ret (-1)
      else
        kill (- pgid) SIGCONT ;;
        ret 0
  end.

(** *** printf's [%jd] *)

Definition digit_char (d : Z) : ascii := ascii_of_N (Z.to_N (48 + d)).

(** The decimal digits of [n], most significant first, put before [acc];
    [fuel] bounds their number. *)
Fixpoint digits_of (fuel : nat) (n : Z) (acc : string) : string :=
  match fuel with
  | O => acc
  | S fuel' =>
      let acc' := String (digit_char (n mod 10)) acc in
      if n / 10 =? 0 then acc' else digits_of fuel' (n / 10) acc'
  end.

(** More than the number of decimal digits of [n]. *)
Definition digits_fuel (n : Z) : nat := S (Z.to_nat (Z.log2 n)).

Definition decimal (z : Z) : string :=
  if z <? 0 then String "-" (digits_of (digits_fuel (- z)) (- z) "")
  else digits_of (digits_fuel z) z "".




(** A state whose private table is free of duplicates and holds valid names
    only, as every state grown from an empty table is. *)
Definition table_ok (st : shell) : Prop :=
  List.NoDup (names st) /\
  Forall (fun n => vars_is_valid_varname n <> 0) (names st).

(** The test of the search loops: the record is called [name]. *)
Definition named (name : string) (r : var) : bool :=
  String.eqb (var_name r) name.

(** The record [vars_get] would consult for [name]. *)
Definition record_of (name : string) (st : shell) : option var :=
  match find_var_from name (var_list st) 0 with
  | Some p => var_list st !! p
  | None => None
  end.

(** A state to try exports on: [x] is private with value "1". *)
Definition private_x : shell :=
  Shell [Var "x" false (Some "1")] ∅ 0 0 [] "/" ∅ [] [] [].

(** * Properties *)

(** ** Name validation *)

Lemma isalpha_letter c : isalpha c = true <-> letter c.
Proof.
  unfold isalpha, isupper, islower, in_range, letter.
  rewrite orb_true_iff, !andb_true_iff, !Z.leb_le. tauto.
Qed.

Lemma isdigit_digit c : isdigit c = true <-> digit c.
Proof.
  unfold isdigit, in_range, digit. rewrite andb_true_iff, !Z.leb_le. tauto.
Qed.

Lemma name_char_ok c :
  negb (isalnum c) && negb (Ascii.eqb c "_") = false <->
  letter c \/ digit c \/ c = "_"%char.
Proof.
  rewrite andb_false_iff, !negb_false_iff. unfold isalnum.
  rewrite orb_true_iff, isalpha_letter, isdigit_digit, Ascii.eqb_eq. tauto.
Qed.

Lemma loop_shift c s i k :
  is_valid_varname_loop (String c s) (S i) k = is_valid_varname_loop s i k.
Proof.
  revert i. induction k as [|k IH]; intros i; simpl; [reflexivity|].
  rewrite IH. reflexivity.
Qed.

Lemma loop_values s i k :
  is_valid_varname_loop s i k = 0 \/ is_valid_varname_loop s i k = 1.
Proof.
  revert i. induction k as [|k IH]; intros i; simpl; [now right|].
  destruct (_ && _); [now left | apply IH].
Qed.

Lemma loop_name_rest s :
  is_valid_varname_loop s 0 (strlen s) = 1 <-> name_rest s.
Proof.
  induction s as [|c s IH]; simpl; [tauto|].
  change (char_at (String c s) 0) with c.
  rewrite loop_shift.
  destruct (negb (isalnum c) && negb (Ascii.eqb c "_")) eqn:E.
  - split; [discriminate|]. intros [H _]. apply name_char_ok in H. congruence.
  - apply name_char_ok in E. tauto.
Qed.

Lemma is_valid_varname_values s :
  is_valid_varname s = 0 \/ is_valid_varname s = 1.
Proof.
  unfold is_valid_varname. destruct (_ && _); [now left | apply loop_values].
Qed.

Lemma is_valid_varname_grammar s : is_valid_varname s = 1 <-> name_grammar s.
Proof.
  unfold is_valid_varname. destruct s as [|c s].
  - simpl. split; [discriminate | tauto].
  - change (char_at (String c s) 0) with c.
    assert (L : is_valid_varname_loop (String c s) 1 (strlen (String c s) - 1)
                = is_valid_varname_loop s 0 (strlen s)).
    { rewrite loop_shift. simpl. rewrite Nat.sub_0_r. reflexivity. }
    rewrite L. simpl name_grammar. rewrite <- loop_name_rest.
    destruct (negb (isalpha c) && negb (Ascii.eqb c "_")) eqn:E.
    + split; [discriminate|]. intros [H _].
      apply andb_true_iff in E as [E1 E2].
      apply negb_true_iff in E1, E2.
      destruct H as [H|H].
      * apply isalpha_letter in H. congruence.
      * apply Ascii.eqb_eq in H. congruence.
    + apply andb_false_iff in E. rewrite !negb_false_iff in E.
      rewrite isalpha_letter, Ascii.eqb_eq in E. tauto.
Qed.

(** C4.  [vars_is_valid_varname] answers 1 exactly on the strings of the name
    grammar (not empty, a letter or underscore first, then letters, digits
    and underscores) and 0 on all others; "1abc", "" and "a-b" are refused,
    "_a1", "A" and "a_B2" accepted. *)
Theorem vars_is_valid_varname_iff_grammar :
  (forall S : string, vars_is_valid_varname S = 1 <-> name_grammar S) /\
  (forall S : string, vars_is_valid_varname S = 0 <-> ~ name_grammar S) /\
  vars_is_valid_varname "1abc" = 0 /\
  vars_is_valid_varname "" = 0 /\
  vars_is_valid_varname "a-b" = 0 /\
  vars_is_valid_varname "_a1" = 1 /\
  vars_is_valid_varname "A" = 1 /\
  vars_is_valid_varname "a_B2" = 1.
Proof.
  split; [|split].
  - intros S. apply is_valid_varname_grammar.
  - intros S. unfold vars_is_valid_varname.
    rewrite <- is_valid_varname_grammar.
    destruct (is_valid_varname_values S) as [H|H]; rewrite H; split;
      intros; congruence || lia.
  - repeat split; reflexivity.
Qed.

(** ** The redirection shim *)

(** The shim stops at the first pair that holds [fd] in either slot. *)
Lemma get_pseudo_fd_no_match redir_list fd :
  Forall (fun r => realfd r <> fd /\ pseudofd r <> fd) redir_list ->
  get_pseudo_fd redir_list fd = fd.
Proof.
  induction 1 as [|r l [Hr Hp] _ IH]; simpl; [reflexivity|].
  apply Z.eqb_neq in Hr, Hp. rewrite Hr, Hp. exact IH.
Qed.

(** C2, as the code has it.  The first pair, in list order, that holds [fd]
    in either slot decides: -1 when [fd] is that pair's real descriptor,
    otherwise that pair's real descriptor; with no such pair [fd] comes back
    unchanged.  For the list [(10,2)]: 10 gives 2, 2 gives -1, 1 gives 1. *)
Theorem get_pseudo_fd_first_match :
  (forall (redir_list : list builtin_redir) (fd : Z),
     get_pseudo_fd redir_list fd =
     match List.find (fun r => (realfd r =? fd) || (pseudofd r =? fd))
                     redir_list with
     | Some r => if realfd r =? fd then -1 else realfd r
     | None => fd
     end) /\
  get_pseudo_fd [Redir 10 2] 10 = 2 /\
  get_pseudo_fd [Redir 10 2] 2 = -1 /\
  get_pseudo_fd [Redir 10 2] 1 = 1.
Proof.
  split; [|repeat split; reflexivity].
  intros redir_list fd.
  induction redir_list as [|r l IH]; simpl; [reflexivity|].
  destruct (realfd r =? fd) eqn:Er; simpl; [rewrite Er; reflexivity|].
  destruct (pseudofd r =? fd); simpl; [rewrite Er; reflexivity | exact IH].
Qed.

(** C2, as the claim words it, fails: in [(5,1); (7,5)] descriptor 5 is the
    real descriptor of the second pair, yet the first pair answers 1. *)
Lemma get_pseudo_fd_not_three_tiers :
  ~ (forall (redir_list : list builtin_redir) (fd : Z),
       get_pseudo_fd redir_list fd = shim_three_tiers redir_list fd).
Proof.
  intros H. specialize (H [Redir 5 1; Redir 7 5] 5). vm_compute in H.
  discriminate H.
Qed.

(** The two readings agree on every list in which no descriptor is both a
    pseudo-descriptor and a real one. *)
Lemma get_pseudo_fd_three_tiers_disjoint redir_list fd :
  (forall r r', In r redir_list -> In r' redir_list ->
                pseudofd r = fd -> realfd r' <> fd) ->
  get_pseudo_fd redir_list fd = shim_three_tiers redir_list fd.
Proof.
  unfold shim_three_tiers.
  induction redir_list as [|r l IH]; intros D; simpl; [reflexivity|].
  destruct (realfd r =? fd) eqn:Er; simpl; [reflexivity|].
  destruct (pseudofd r =? fd) eqn:Ep.
  - apply Z.eqb_eq in Ep.
    assert (N : existsb (fun r0 => realfd r0 =? fd) l = false).
    { apply not_true_is_false. intros E.
      apply existsb_exists in E as (r' & Hin & Hr'). apply Z.eqb_eq in Hr'.
      apply (D r r'); simpl; auto. }
    rewrite N. reflexivity.
  - apply IH. intros q q' Hq Hq'. apply D; simpl; auto.
Qed.

(** ** The variable list *)

Ltac run := cbv [bind ret gets modify] in *.

Lemma find_var_from_Some name l i p :
  find_var_from name l i = Some p ->
  (i <= p)%nat /\ exists r, l !! (p - i)%nat = Some r /\ var_name r = name.
Proof.
  revert i. induction l as [|r l IH]; intros i; simpl; [discriminate|].
  destruct (String.eqb (var_name r) name) eqn:E.
  - intros [= <-]. split; [lia|]. rewrite Nat.sub_diag.
    exists r. split; [reflexivity | now apply String.eqb_eq].
  - intros H. apply IH in H as (Hle & r' & Hr' & Hn). split; [lia|].
    exists r'. split; [|exact Hn].
    replace (p - i)%nat with (S (p - S i)) by lia. exact Hr'.
Qed.

Lemma find_var_from_None name l i :
  find_var_from name l i = None -> ~ In name (map var_name l).
Proof.
  revert i. induction l as [|r l IH]; intros i; simpl; [tauto|].
  destruct (String.eqb (var_name r) name) eqn:E; [discriminate|].
  apply String.eqb_neq in E. intros H [Hr|Hin]; [congruence|].
  exact (IH _ H Hin).
Qed.

Lemma find_var_from_alter (f : var -> var) name k l i :
  (forall r, var_name (f r) = var_name r) ->
  find_var_from name (alter f k l) i = find_var_from name l i.
Proof.
  intros Hf. revert k i. induction l as [|r l IH]; intros k i; [reflexivity|].
  destruct k as [|k]; cbn.
  - rewrite Hf. reflexivity.
  - rewrite IH. reflexivity.
Qed.

Lemma names_alter (f : var -> var) k (l : list var) :
  (forall r, var_name (f r) = var_name r) ->
  map var_name (alter f k l) = map var_name l.
Proof.
  intros Hf. revert k. induction l as [|r l IH]; intros k; [reflexivity|].
  destruct k as [|k]; cbn; [now rewrite Hf | now rewrite IH].
Qed.

Lemma remove_var_from_incl name l x :
  In x (map var_name (remove_var_from name l)) -> In x (map var_name l).
Proof.
  induction l as [|r l IH]; simpl; [tauto|].
  destruct (String.eqb (var_name r) name); simpl; tauto.
Qed.

Lemma remove_var_from_NoDup name l :
  List.NoDup (map var_name l) ->
  List.NoDup (map var_name (remove_var_from name l)).
Proof.
  induction l as [|r l IH]; simpl; [trivial|].
  intros H. apply List.NoDup_cons_iff in H as [Hr Hl].
  destruct (String.eqb (var_name r) name); simpl; [exact Hl|].
  apply List.NoDup_cons; [|auto].
  intros Hin. apply Hr. eapply remove_var_from_incl, Hin.
Qed.

(** *** What the libc calls leave alone *)

Lemma malloc_frame ok st st' :
  malloc st = (ok, st') ->
  var_list st' = var_list st /\ environ st' = environ st /\
  fd_log st' = fd_log st /\ sig_log st' = sig_log st /\
  cwd st' = cwd st /\ fs st' = fs st /\ joblist st' = joblist st.
Proof.
  unfold malloc, alloc. destruct (oom st) as [|[] rest]; simpl;
    intros [= <- <-]; repeat split; reflexivity.
Qed.

Lemma setenv_frame name value ow rc st st' :
  setenv name value ow st = (rc, st') ->
  var_list st' = var_list st /\
  fd_log st' = fd_log st /\ sig_log st' = sig_log st /\
  cwd st' = cwd st /\ fs st' = fs st /\ joblist st' = joblist st.
Proof.
  unfold setenv, getenv. run. destruct (bad_env_name name).
  - intros [= <- <-]. repeat split; reflexivity.
  - destruct (malloc st) as [ok s1] eqn:Em.
    apply malloc_frame in Em as (? & ? & ? & ? & ? & ? & ?).
    destruct ok; simpl.
    + destruct (_ && _); intros [= <- <-]; simpl; repeat split; assumption.
    + intros [= <- <-]. repeat split; assumption.
Qed.

(** [setenv] with [overwrite] set: on success the variable holds the value
    and nothing else in the environment moved; on failure nothing moved. *)
Lemma setenv_result name value rc st st' :
  setenv name value 1 st = (rc, st') ->
  (rc = 0 /\ environ st' = <[name := value]> (environ st)) \/
  (rc = -1 /\ environ st' = environ st).
Proof.
  unfold setenv, getenv. run. destruct (bad_env_name name).
  - intros [= <- <-]. right. split; reflexivity.
  - destruct (malloc st) as [ok s1] eqn:Em.
    apply malloc_frame in Em as (_ & He & _).
    destruct ok; simpl; intros [= <- <-]; simpl.
    + left. rewrite He. split; reflexivity.
    + right. split; [reflexivity | exact He].
Qed.

(** *** [ensure_var] *)

Lemma ensure_var_found name st p st' :
  ensure_var name st = (Some p, st') ->
  find_var_from name (var_list st') 0 = Some p /\
  environ st' = environ st /\
  fd_log st' = fd_log st /\ sig_log st' = sig_log st /\
  cwd st' = cwd st /\ fs st' = fs st /\ joblist st' = joblist st /\
  (var_list st' = var_list st \/
   find_var_from name (var_list st) 0 = None /\ p = 0%nat /\
   var_list st' =
     Var name (bool_decide (is_Some (environ st !! name))) None :: var_list st).
Proof.
  unfold ensure_var, find_var, new_var, getenv. run.
  destruct (find_var_from name (var_list st) 0) as [q|] eqn:F.
  - intros [= <- <-]. repeat split; auto.
  - destruct (malloc st) as [ok s1] eqn:Em.
    apply malloc_frame in Em as (Hl & He & ? & ? & ? & ? & ?).
    destruct ok; simpl; [|discriminate].
    intros [= <- <-]. simpl. rewrite String.eqb_refl.
    repeat split; try assumption. right. repeat split.
    rewrite Hl, He. f_equal. f_equal.
    destruct (environ st !! name); [rewrite bool_decide_eq_true_2; eauto|].
    rewrite bool_decide_eq_false_2; [reflexivity|]. intros [? ?]; discriminate.
Qed.

Lemma ensure_var_names name v st st' :
  ensure_var name st = (v, st') ->
  List.NoDup (names st) -> List.NoDup (names st').
Proof.
  unfold names. destruct v as [p|].
  - intros H. apply ensure_var_found in H as (_ & _ & _ & _ & _ & _ & _ & H).
    destruct H as [->|(F & _ & ->)]; [trivial|].
    intros N. simpl. apply List.NoDup_cons; [|exact N].
    eapply find_var_from_None, F.
  - unfold ensure_var, find_var, new_var, getenv. run.
    destruct (find_var_from name (var_list st) 0); [discriminate|].
    destruct (malloc st) as [ok s1] eqn:Em.
    apply malloc_frame in Em as (Hl & _).
    destruct ok; simpl; [discriminate|]. intros [= <-]. now rewrite Hl.
Qed.

(** ** The public operations *)

Lemma valid_test name :
  vars_is_valid_varname name <> 0 -> (is_valid_varname name =? 0) = false.
Proof. intros H. now apply Z.eqb_neq. Qed.

(** [vars_get] on a valid name reads the first record of that name when it is
    not exported, and the environment otherwise; it changes nothing. *)
Lemma vars_get_read name st :
  vars_is_valid_varname name <> 0 ->
  vars_get (Some name) st =
  (match find_var_from name (var_list st) 0 with
   | Some p =>
       if var_export (deref p st) then environ st !! name
       else var_value (deref p st)
   | None => environ st !! name
   end, st).
Proof.
  intros V. unfold vars_get, find_var, getenv. rewrite (valid_test _ V). run.
  destruct (find_var_from name (var_list st) 0) as [p|]; simpl; [|reflexivity].
  destruct (var_export (deref p st)); reflexivity.
Qed.

Lemma vars_get_after_set (N V : string) (st st' : shell) :
  vars_is_valid_varname N <> 0 ->
  vars_set (Some N) (Some V) st = (0, st') ->
  fst (vars_get (Some N) st') = Some V.
Proof.
  intros Hv H. rewrite (vars_get_read _ _ Hv). simpl.
  unfold vars_set in H. rewrite (valid_test _ Hv) in H.
  unfold bind at 1 in H.
  destruct (ensure_var N st) as [[p|] s1] eqn:E; [|discriminate H].
  apply ensure_var_found in E as (F & _).
  run. destruct (var_export (deref p s1)) eqn:X.
  - pose proof (setenv_frame _ _ _ _ _ _ H) as (Hl & _).
    apply setenv_result in H as [[_ He]|[? _]]; [|discriminate].
    unfold deref in *. rewrite Hl, F. rewrite X, He. apply lookup_insert_eq.
  - unfold strdup in H. run.
    destruct (malloc s1) as [ok s2] eqn:Em.
    apply malloc_frame in Em as (Hl & _).
    destruct ok; [|discriminate H]. injection H as <-.
    unfold deref in *. simpl. rewrite Hl.
    rewrite find_var_from_alter by reflexivity. rewrite F.
    apply find_var_from_Some in F as (_ & r & Hr & _).
    rewrite Nat.sub_0_r in Hr.
    rewrite list_lookup_alter_eq, Hr in *. simpl in *. rewrite X. reflexivity.
Qed.

(** C1.  After a successful [vars_set] of a valid name, [vars_get] of that
    name gives the value just set, in every state of the store: whether the
    name had an exported record, a private one, or none. *)
Theorem vars_set_then_get (N V : string) (st st' : shell) :
  vars_is_valid_varname N <> 0 ->
  vars_set (Some N) (Some V) st = (0, st') ->
  fst (vars_get (Some N) st') = Some V.
Proof.
  exact (vars_get_after_set N V st st').
Qed.

(** C1 at work: [PATH] comes from the environment and is set there, [x] is
    new and lands in the private table. *)
Lemma vars_set_then_get_witness :
  fst (vars_get (Some "PATH")
         (snd (vars_set (Some "PATH") (Some "/bin")
                 (boot {[ "PATH" := "/usr/bin" ]})))) = Some "/bin" /\
  fst (vars_get (Some "x") (snd (vars_set (Some "x") (Some "1") (boot ∅))))
  = Some "1".
Proof.
  split.
  - apply (vars_set_then_get "PATH" "/bin" (boot {[ "PATH" := "/usr/bin" ]}));
      [vm_compute; discriminate | reflexivity].
  - apply (vars_set_then_get "x" "1" (boot ∅));
      [vm_compute; discriminate | reflexivity].
Defined.

(** *** One record per name *)

Lemma vars_set_names name value st :
  List.NoDup (names st) -> List.NoDup (names (snd (vars_set name value st))).
Proof.
  intros N. unfold vars_set.
  destruct name as [name|], value as [value|]; try exact N.
  destruct (is_valid_varname name =? 0); [exact N|].
  unfold bind at 1.
  destruct (ensure_var name st) as [[p|] s1] eqn:E;
    apply ensure_var_names in E; auto.
  run. destruct (var_export (deref p s1)).
  - destruct (setenv name value 1 s1) as [rc s2] eqn:S.
    apply setenv_frame in S as (Hl & _). unfold names. simpl.
    now rewrite Hl.
  - unfold strdup. run. destruct (malloc s1) as [ok s2] eqn:Em.
    apply malloc_frame in Em as (Hl & _).
    unfold names in *. destruct ok; simpl; [|now rewrite Hl].
    rewrite names_alter by reflexivity. now rewrite Hl.
Qed.

Lemma vars_get_names name st :
  names (snd (vars_get name st)) = names st.
Proof.
  unfold vars_get, find_var, getenv. destruct name as [name|]; [|reflexivity].
  destruct (is_valid_varname name =? 0); [reflexivity|]. run.
  destruct (find_var_from name (var_list st) 0) as [p|]; simpl; [|reflexivity].
  destruct (var_export (deref p st)); reflexivity.
Qed.

Lemma vars_unset_names name st :
  List.NoDup (names st) -> List.NoDup (names (snd (vars_unset name st))).
Proof.
  intros N. unfold vars_unset, remove_var, unsetenv.
  destruct name as [name|]; [|exact N].
  destruct (is_valid_varname name =? 0); [exact N|]. run.
  destruct (bad_env_name name); simpl; now apply remove_var_from_NoDup.
Qed.

Lemma vars_export_names name st :
  List.NoDup (names st) -> List.NoDup (names (snd (vars_export name st))).
Proof.
  intros N. unfold vars_export. destruct name as [name|]; [|exact N].
  destruct (is_valid_varname name =? 0); [exact N|].
  unfold bind at 1.
  destruct (ensure_var name st) as [[p|] s1] eqn:E;
    apply ensure_var_names in E; auto.
  unfold store_export. run.
  match goal with |- context [var_value ?r] => destruct (var_value r) end;
    [|unfold names; simpl; now rewrite names_alter].
  match goal with |- context [setenv ?a ?b ?c ?d] =>
    destruct (setenv a b c d) as [rc s2] eqn:S end.
  apply setenv_frame in S as (Hl & _). simpl in Hl.
  assert (Hn : names s2 = names s1).
  { unfold names. rewrite Hl. now apply names_alter. }
  destruct (rc <? 0); simpl; now rewrite Hn.
Qed.

Lemma run_ops_names ops st :
  List.NoDup (names st) -> List.NoDup (names (run_ops ops st)).
Proof.
  revert st. unfold run_ops.
  induction ops as [|o ops IH]; intros st N; simpl; [exact N|].
  apply IH. destruct o as [n v|n|n|n]; simpl.
  - now apply vars_set_names.
  - now rewrite vars_get_names.
  - now apply vars_unset_names.
  - now apply vars_export_names.
Qed.

(** C9.  Starting from an empty private table, whatever the environment and
    whatever calls of set, get, unset and export follow (null and malformed
    arguments and failing allocations included), after each call of the
    sequence no two records of the table carry the same name. *)
Theorem one_record_per_name (ops : list store_op) (k : nat) (st : shell) :
  var_list st = [] ->
  List.NoDup (names (run_ops (firstn k ops) st)).
Proof.
  intros E. apply run_ops_names. unfold names. rewrite E. constructor.
Qed.

(** C9 at work: set twice, export, unset and set again leave one record. *)
Lemma one_record_per_name_witness :
  List.NoDup (names (run_ops (firstn 7
    [OpSet (Some "a") (Some "1"); OpSet (Some "a") (Some "2");
     OpExport (Some "a"); OpGet (Some "a"); OpSet (Some "b") (Some "3");
     OpUnset (Some "a"); OpSet (Some "a") (Some "4")])
    (boot ∅))).
Proof.
  apply (one_record_per_name _ 7 (boot ∅)). reflexivity.
Defined.

(** *** Failed writes *)

Lemma find_var_from_shift name l i :
  find_var_from name l (S i) = S <$> find_var_from name l i.
Proof.
  revert i. induction l as [|r l IH]; intros i; simpl; [reflexivity|].
  destruct (String.eqb (var_name r) name); [reflexivity | apply IH].
Qed.

(** What [vars_get] answers depends on the table and the environment only. *)
Lemma vars_get_ext name st st' :
  var_list st' = var_list st -> environ st' = environ st ->
  fst (vars_get name st') = fst (vars_get name st).
Proof.
  intros Hl He. unfold vars_get, find_var, getenv, deref. run.
  destruct name as [name|]; [|reflexivity].
  destruct (is_valid_varname name =? 0); [reflexivity|].
  simpl. rewrite Hl.
  destruct (find_var_from name (var_list st) 0) as [p|]; simpl;
    [|now rewrite He].
  destruct (var_export _); simpl; [now rewrite He | reflexivity].
Qed.

(** [vars_set] that reports failure has written nothing that can be read
    back: the environment is as it was, and [vars_get] answers as before for
    every name. *)
Lemma vars_set_failure_unobservable name value rc st st' (M : string) :
  vars_set name value st = (rc, st') ->
  rc <> 0 ->
  environ st' = environ st /\
  fst (vars_get (Some M) st') = fst (vars_get (Some M) st).
Proof.
  intros H Hrc. unfold vars_set in H.
  assert (T : forall s, var_list s = var_list st -> environ s = environ st ->
                environ s = environ st /\
                fst (vars_get (Some M) s) = fst (vars_get (Some M) st)).
  { intros s Hl He. split; [exact He | now apply vars_get_ext]. }
  destruct name as [name|], value as [value|];
    try (injection H as <- <-; apply T; reflexivity).
  destruct (is_valid_varname name =? 0) eqn:Vn;
    [injection H as <- <-; apply T; reflexivity|].
  unfold bind at 1 in H.
  destruct (ensure_var name st) as [[p|] s1] eqn:E.
  - apply ensure_var_found in E as (F & He & _ & _ & _ & _ & _ & Hc).
    assert (G : environ s1 = environ st /\
                fst (vars_get (Some M) s1) = fst (vars_get (Some M) st)).
    { destruct Hc as [Hl|(Fn & -> & Hl)]; [now apply T|].
      split; [exact He|].
      destruct (Z.eq_dec (is_valid_varname M) 0) as [Z0|Z1].
      { unfold vars_get. rewrite Z0. reflexivity. }
      rewrite !vars_get_read by exact Z1. unfold deref. simpl.
      rewrite Hl, He. simpl.
      destruct (String.eqb name M) eqn:NM.
      + apply String.eqb_eq in NM. subst M. rewrite Fn. simpl.
        destruct (environ st !! name) eqn:Q.
        * rewrite bool_decide_eq_true_2 by eauto. reflexivity.
        * rewrite bool_decide_eq_false_2; [reflexivity|].
          intros [? ?]; discriminate.
      + rewrite find_var_from_shift.
        destruct (find_var_from M (var_list st) 0); reflexivity. }
    destruct G as [G1 G2]. rewrite <- G1, <- G2. clear G1 G2 Hc He T.
    run. destruct (var_export (deref p s1)) eqn:X.
    + pose proof (setenv_frame _ _ _ _ _ _ H) as (Hl & _).
      apply setenv_result in H as [[? _]|[_ He]]; [congruence|].
      split; [exact He | now apply vars_get_ext].
    + unfold strdup in H. run.
      destruct (malloc s1) as [ok s2] eqn:Em.
      apply malloc_frame in Em as (Hl & He & _).
      destruct ok; injection H as <- <-; [congruence|].
      split; [exact He | now apply vars_get_ext].
  - injection H as <- <-. clear Hrc.
    unfold ensure_var, find_var, new_var, getenv in E. run.
    destruct (find_var_from name (var_list st) 0); [discriminate|].
    destruct (malloc st) as [ok s2] eqn:Em.
    apply malloc_frame in Em as (Hl & He & _).
    destruct ok; simpl in E; [discriminate|]. injection E as <-.
    now apply T.
Qed.

(** The store of the failing case: [FOO] holds "bar" privately, is not in
    the environment, and the next allocation fails. *)
Definition private_FOO : shell :=
  Shell [Var "FOO" false (Some "bar")] ∅ 0 0 [] "/" ∅ [true] [] [].

(** C3, where the code departs from it.  [vars_export] of a private variable
    marks the record exported before it writes the environment; when that
    write fails the call reports -1 and the mark stays, so the value that
    [vars_get] gave before the call is out of reach after it. *)
Theorem vars_export_failure_keeps_mark :
  fst (vars_get (Some "FOO") private_FOO) = Some "bar" /\
  fst (vars_export (Some "FOO") private_FOO) = -1 /\
  fst (getenv "FOO" (snd (vars_export (Some "FOO") private_FOO))) = None /\
  var_list (snd (vars_export (Some "FOO") private_FOO))
  = [Var "FOO" true (Some "bar")] /\
  fst (vars_get (Some "FOO") (snd (vars_export (Some "FOO") private_FOO)))
  = None.
Proof.
  repeat split; vm_compute; reflexivity.
Qed.

(** ** cd *)

Lemma vars_set_frame name value rc st st' :
  vars_set name value st = (rc, st') ->
  fd_log st' = fd_log st /\ sig_log st' = sig_log st /\
  cwd st' = cwd st /\ fs st' = fs st /\ joblist st' = joblist st.
Proof.
  unfold vars_set.
  destruct name as [name|], value as [value|];
    try (intros [= <- <-]; repeat split; reflexivity).
  destruct (is_valid_varname name =? 0);
    [intros [= <- <-]; repeat split; reflexivity|].
  unfold bind at 1.
  destruct (ensure_var name st) as [[p|] s1] eqn:E.
  - apply ensure_var_found in E as (_ & _ & A1 & A2 & A3 & A4 & A5 & _).
    rewrite <- A1, <- A2, <- A3, <- A4, <- A5. clear.
    run. destruct (var_export (deref p s1)).
    + intros H. apply setenv_frame in H. tauto.
    + unfold strdup. run. destruct (malloc s1) as [ok s2] eqn:Em.
      apply malloc_frame in Em as (_ & _ & ? & ? & ? & ? & ?).
      destruct ok; intros [= <- <-]; simpl; repeat split; assumption.
  - intros [= <- <-].
    unfold ensure_var, find_var, new_var, getenv in E. run.
    destruct (find_var_from name (var_list st) 0); [discriminate|].
    destruct (malloc st) as [ok s2] eqn:Em.
    apply malloc_frame in Em as (_ & _ & ? & ? & ? & ? & ?).
    destruct ok; simpl in E; [discriminate|]. injection E as <-.
    repeat split; assumption.
Qed.

Lemma valid_HOME : vars_is_valid_varname "HOME" <> 0.
Proof. vm_compute. discriminate. Qed.

Lemma valid_PWD : vars_is_valid_varname "PWD" <> 0.
Proof. vm_compute. discriminate. Qed.

(** Reading a variable of valid name leaves the process as it was. *)
Lemma vars_get_pure name st :
  vars_is_valid_varname name <> 0 ->
  vars_get (Some name) st = (fst (vars_get (Some name) st), st).
Proof. intros V. rewrite (vars_get_read _ _ V). reflexivity. Qed.

Lemma builtin_cd_no_arg cmd redir_list st :
  word_count cmd = 1 ->
  builtin_cd cmd redir_list st =
  match fst (vars_get (Some "HOME") st) with
  | None =>
      (-1, with_fd_log
             (fd_log st ++ [(get_pseudo_fd redir_list STDERR_FILENO,
                             msg "cd: HOME not set")]) st)
  | Some home => cd_tail redir_list (Some home) st
  end.
Proof.
  intros W. unfold builtin_cd. rewrite W.
  change (1 =? 1) with true. cbv iota. unfold bind at 1.
  rewrite (vars_get_pure "HOME" st valid_HOME).
  destruct (fst (vars_get (Some "HOME") st)) as [home|]; reflexivity.
Qed.

Lemma builtin_cd_one_arg cmd redir_list st :
  word_count cmd = 2 ->
  builtin_cd cmd redir_list st =
  if vars_is_valid_varname (word cmd 1) =? 0 then (-1, st)
  else cd_tail redir_list (Some (word cmd 1)) st.
Proof.
  intros W. unfold builtin_cd. rewrite W.
  change (2 =? 1) with false. change (2 >? 2) with false.
  change (2 =? 2) with true. cbv iota.
  destruct (vars_is_valid_varname (word cmd 1) =? 0); reflexivity.
Qed.

Lemma builtin_cd_many_args cmd redir_list st :
  2 < word_count cmd ->
  builtin_cd cmd redir_list st =
  (-1, with_fd_log
         (fd_log st ++ [(get_pseudo_fd redir_list STDERR_FILENO,
                         msg "cd: Too many arguments")]) st).
Proof.
  intros W. unfold builtin_cd.
  destruct (word_count cmd =? 1) eqn:E1; [apply Z.eqb_eq in E1; lia|].
  replace (word_count cmd >? 2) with true by (symmetry; apply Z.gtb_lt; lia).
  reflexivity.
Qed.

Lemma builtin_cd_no_word cmd redir_list st :
  word_count cmd = 0 ->
  builtin_cd cmd redir_list st = cd_tail redir_list None st.
Proof.
  intros W. unfold builtin_cd. rewrite W. reflexivity.
Qed.

(** The tail either fails to set [PWD], says so and returns -1, or sets it,
    reads it back and calls [chdir] with it, returning 0 whatever [chdir]
    answers. *)
Lemma cd_tail_cases redir_list target st :
  (exists s1, fst (vars_set (Some "PWD") target st) <> 0 /\
     s1 = snd (vars_set (Some "PWD") target st) /\
     cd_tail redir_list target st =
     (-1, with_fd_log
            (fd_log s1 ++ [(get_pseudo_fd redir_list STDERR_FILENO,
                            msg "cd: Error setting PWD")]) s1)) \/
  (exists t s1, target = Some t /\
     vars_set (Some "PWD") (Some t) st = (0, s1) /\
     fst (vars_get (Some "PWD") s1) = Some t /\
     cd_tail redir_list target st = (0, snd (chdir (Some t) s1))).
Proof.
  destruct (vars_set (Some "PWD") target st) as [rc s1] eqn:S.
  assert (C : cd_tail redir_list target st =
              (if negb (rc =? 0) then
                 dprintf (get_pseudo_fd redir_list STDERR_FILENO)
                         (msg "cd: Error setting PWD") ;;
                 ret (-1)
               else
                 do target_dir <- vars_get (Some "PWD");
                 chdir target_dir ;;
                 ret 0) s1).
  { unfold cd_tail. unfold bind at 1. rewrite S. reflexivity. }
  rewrite C. clear C. cbn [fst snd].
  destruct (rc =? 0) eqn:R; cbn [negb].
  - right. apply Z.eqb_eq in R. subst rc.
    destruct target as [t|]; [|discriminate S].
    exists t, s1. pose proof (vars_get_after_set _ _ _ _ valid_PWD S) as G.
    repeat split; auto. unfold bind at 1.
    rewrite (vars_get_pure "PWD" s1 valid_PWD), G. run.
    destruct (chdir (Some t) s1); reflexivity.
  - left. apply Z.eqb_neq in R. exists s1. repeat split; auto.
Qed.

Lemma word_count_nonneg cmd : 0 <= word_count cmd.
Proof. unfold word_count. lia. Qed.

(** Once the target is found and [PWD] holds it, [builtin_cd] calls [chdir]
    on that state and returns 0. *)
Lemma builtin_cd_reaches cmd redir_list st target s1 :
  cd_reaches_chdir cmd st target s1 ->
  fst (vars_get (Some "PWD") s1) = Some target /\
  builtin_cd cmd redir_list st = (0, snd (chdir (Some target) s1)).
Proof.
  intros [(W & H & S)|(W & V & -> & S)].
  - rewrite (builtin_cd_no_arg _ _ _ W), H.
    destruct (cd_tail_cases redir_list (Some target) st)
      as [(s & N & _)|(t & s & [= <-] & S' & G & C)].
    + rewrite S in N. now contradiction N.
    + rewrite S in S'. injection S' as <-. split; assumption.
  - rewrite (builtin_cd_one_arg _ _ _ W).
    apply Z.eqb_neq in V. rewrite V.
    destruct (cd_tail_cases redir_list (Some (word cmd 1)) st)
      as [(s & N & _)|(t & s & [= <-] & S' & G & C)].
    + rewrite S in N. now contradiction N.
    + rewrite S in S'. injection S' as <-. split; assumption.
Qed.

Lemma builtin_cd_success cmd redir_list st :
  fst (builtin_cd cmd redir_list st) = 0 ->
  exists target s1, cd_reaches_chdir cmd st target s1.
Proof.
  pose proof (word_count_nonneg cmd) as P.
  assert (W : word_count cmd = 0 \/ word_count cmd = 1 \/
              word_count cmd = 2 \/ 2 < word_count cmd) by lia.
  destruct W as [W|[W|[W|W]]].
  - rewrite (builtin_cd_no_word _ _ _ W).
    destruct (cd_tail_cases redir_list None st)
      as [(s & _ & _ & ->)|(t & s & [=] & _)].
    simpl. discriminate.
  - rewrite (builtin_cd_no_arg _ _ _ W).
    destruct (fst (vars_get (Some "HOME") st)) as [home|] eqn:H;
      [|simpl; discriminate].
    destruct (cd_tail_cases redir_list (Some home) st)
      as [(s & _ & _ & ->)|(t & s & [= <-] & S & _)]; [simpl; discriminate|].
    intros _. exists home, s. left. repeat split; assumption.
  - rewrite (builtin_cd_one_arg _ _ _ W).
    destruct (vars_is_valid_varname (word cmd 1) =? 0) eqn:V;
      [simpl; discriminate|].
    apply Z.eqb_neq in V.
    destruct (cd_tail_cases redir_list (Some (word cmd 1)) st)
      as [(s & _ & _ & ->)|(t & s & [= <-] & S & _)]; [simpl; discriminate|].
    intros _. exists (word cmd 1), s. right. repeat split; assumption.
  - rewrite (builtin_cd_many_args _ _ _ W). simpl. discriminate.
Qed.

(** C6.  [cd] alone fails with -1 when [HOME] reads as unset; [cd] with one
    argument fails with -1 when the argument is not a valid variable name;
    [cd] with more arguments fails with -1.  When the target is found ([HOME]'s
    value, or the one valid argument) and [PWD] takes it, [PWD] reads back as
    the target in the very state on which [chdir] is then called with that
    target, and the builtin returns 0; and it returns 0 in no other way. *)
Theorem builtin_cd_contract
    (cmd : command) (redir_list : list builtin_redir) (st : shell) :
  (word_count cmd = 1 -> fst (vars_get (Some "HOME") st) = None ->
   fst (builtin_cd cmd redir_list st) = -1) /\
  (word_count cmd = 2 -> vars_is_valid_varname (word cmd 1) = 0 ->
   fst (builtin_cd cmd redir_list st) = -1) /\
  (2 < word_count cmd -> fst (builtin_cd cmd redir_list st) = -1) /\
  (forall target s1, cd_reaches_chdir cmd st target s1 ->
     fst (vars_get (Some "PWD") s1) = Some target /\
     builtin_cd cmd redir_list st = (0, snd (chdir (Some target) s1))) /\
  (fst (builtin_cd cmd redir_list st) = 0 ->
   exists target s1, cd_reaches_chdir cmd st target s1).
Proof.
  repeat split.
  - intros W H. rewrite (builtin_cd_no_arg _ _ _ W), H. reflexivity.
  - intros W V. rewrite (builtin_cd_one_arg _ _ _ W), V. reflexivity.
  - intros W. rewrite (builtin_cd_many_args _ _ _ W). reflexivity.
  - eapply builtin_cd_reaches; eassumption.
  - eapply builtin_cd_reaches; eassumption.
  - apply builtin_cd_success.
Qed.

(** C6 at work: [cd] alone with [HOME=/home/u] sets [PWD] to /home/u, calls
    [chdir] with it and returns 0. *)
Lemma builtin_cd_contract_witness :
  fst (vars_get (Some "PWD")
         (snd (vars_set (Some "PWD") (Some "/home/u")
                 (boot {[ "HOME" := "/home/u" ]})))) = Some "/home/u" /\
  builtin_cd (Command ["cd"]) [] (boot {[ "HOME" := "/home/u" ]}) =
  (0, snd (chdir (Some "/home/u")
             (snd (vars_set (Some "PWD") (Some "/home/u")
                     (boot {[ "HOME" := "/home/u" ]}))))).
Proof.
  apply (proj1 (proj2 (proj2 (proj2
           (builtin_cd_contract (Command ["cd"]) []
              (boot {[ "HOME" := "/home/u" ]})))))).
  left. repeat split; reflexivity.
Defined.

(** C7.  When [builtin_cd] gets as far as [chdir] and [chdir] fails, the
    builtin still returns 0, [PWD] still reads as the target, and the working
    directory is the one from before the call. *)
Theorem builtin_cd_ignores_chdir_failure
    (cmd : command) (redir_list : list builtin_redir) (st s1 : shell)
    (target : string) :
  cd_reaches_chdir cmd st target s1 ->
  fst (chdir (Some target) s1) <> 0 ->
  fst (builtin_cd cmd redir_list st) = 0 /\
  fst (vars_get (Some "PWD") (snd (builtin_cd cmd redir_list st)))
  = Some target /\
  cwd (snd (builtin_cd cmd redir_list st)) = cwd st.
Proof.
  intros R F.
  assert (S : vars_set (Some "PWD") (Some target) st = (0, s1))
    by (destruct R as [(_ & _ & S)|(_ & _ & _ & S)]; exact S).
  apply vars_set_frame in S as (_ & _ & Hc & _).
  destruct (builtin_cd_reaches _ redir_list _ _ _ R) as [G ->].
  cbn [fst snd]. unfold chdir in *.
  destruct (fs s1 !! (cwd s1, target)); cbn [fst snd] in *;
    [now contradiction F|].
  repeat split; [|exact Hc].
  rewrite <- G. apply vars_get_ext; reflexivity.
Qed.

(** C7 at work: nowhere is set in [HOME] and is no directory of the (empty)
    file system. *)
Lemma builtin_cd_ignores_chdir_failure_witness :
  fst (builtin_cd (Command ["cd"]) [] (boot {[ "HOME" := "nowhere" ]})) = 0 /\
  fst (vars_get (Some "PWD")
         (snd (builtin_cd (Command ["cd"]) []
                 (boot {[ "HOME" := "nowhere" ]}))))
  = Some "nowhere" /\
  cwd (snd (builtin_cd (Command ["cd"]) [] (boot {[ "HOME" := "nowhere" ]})))
  = cwd (boot {[ "HOME" := "nowhere" ]}).
Proof.
  apply (builtin_cd_ignores_chdir_failure (Command ["cd"]) []
           (boot {[ "HOME" := "nowhere" ]})
           (snd (vars_set (Some "PWD") (Some "nowhere")
                   (boot {[ "HOME" := "nowhere" ]})))).
  - left. repeat split; reflexivity.
  - vm_compute. discriminate.
Defined.

(** C10.  [cd] with one argument that is not a valid variable name returns -1
    and leaves the whole process state as it was: nothing is written to any
    descriptor and [PWD] is untouched.  Every other return of -1 comes with
    one diagnostic sent to the descriptor the shim gives for standard
    error. *)
Theorem builtin_cd_invalid_arg_silent
    (cmd : command) (redir_list : list builtin_redir) (st : shell) :
  (word_count cmd = 2 -> vars_is_valid_varname (word cmd 1) = 0 ->
   builtin_cd cmd redir_list st = (-1, st)) /\
  (fst (builtin_cd cmd redir_list st) = -1 ->
   ~ (word_count cmd = 2 /\ vars_is_valid_varname (word cmd 1) = 0) ->
   exists text,
     fd_log (snd (builtin_cd cmd redir_list st)) =
     (fd_log st ++ [(get_pseudo_fd redir_list STDERR_FILENO, text)])%list).
Proof.
  split.
  - intros W V. rewrite (builtin_cd_one_arg _ _ _ W), V. reflexivity.
  - assert (T : forall target,
               fst (cd_tail redir_list target st) = -1 ->
               exists text,
                 fd_log (snd (cd_tail redir_list target st)) =
                 (fd_log st ++ [(get_pseudo_fd redir_list STDERR_FILENO, text)])%list).
    { intros target.
      destruct (cd_tail_cases redir_list target st)
        as [(s & _ & Hs & ->)|(t & s & _ & _ & _ & ->)];
        [|simpl; discriminate].
      intros _. eexists. simpl.
      destruct (vars_set (Some "PWD") target st) as [rc s'] eqn:S.
      apply vars_set_frame in S as (L & _). subst s. simpl. rewrite L.
      reflexivity. }
    pose proof (word_count_nonneg cmd) as P.
    assert (W : word_count cmd = 0 \/ word_count cmd = 1 \/
                word_count cmd = 2 \/ 2 < word_count cmd) by lia.
    destruct W as [W|[W|[W|W]]].
    + rewrite (builtin_cd_no_word _ _ _ W). intros F _. now apply T.
    + rewrite (builtin_cd_no_arg _ _ _ W).
      destruct (fst (vars_get (Some "HOME") st)) as [home|].
      * intros F _. now apply T.
      * intros _ _. eexists. reflexivity.
    + rewrite (builtin_cd_one_arg _ _ _ W).
      destruct (vars_is_valid_varname (word cmd 1) =? 0) eqn:V.
      * apply Z.eqb_eq in V. intros _ N. contradiction N. now split.
      * intros F _. now apply T.
    + rewrite (builtin_cd_many_args _ _ _ W). intros _ _. eexists. reflexivity.
Qed.

(** C10 at work: [cd /tmp] is refused in silence, since "/" is no name
    character; [cd a b] is refused with a diagnostic. *)
Lemma builtin_cd_invalid_arg_silent_witness :
  builtin_cd (Command ["cd"; "/tmp"]) [Redir 2 7] (boot ∅) = (-1, boot ∅) /\
  exists text,
    fd_log (snd (builtin_cd (Command ["cd"; "a"; "b"]) [Redir 2 7] (boot ∅))) =
    (fd_log (boot ∅) ++ [(get_pseudo_fd [Redir 2 7] STDERR_FILENO, text)])%list.
Proof.
  split.
  - apply (proj1 (builtin_cd_invalid_arg_silent
                    (Command ["cd"; "/tmp"]) [Redir 2 7] (boot ∅)));
      reflexivity.
  - apply (proj2 (builtin_cd_invalid_arg_silent
                    (Command ["cd"; "a"; "b"]) [Redir 2 7] (boot ∅)));
      [reflexivity | intros [W _]; discriminate W].
Defined.

(** ** strtol *)

Lemma app_cons c (a b : string) :
  (String c a ++ b)%string = String c (a ++ b).
Proof. reflexivity. Qed.

Lemma app_empty (b : string) : (EmptyString ++ b)%string = b.
Proof. reflexivity. Qed.

Lemma take_drop n s : (take n s ++ drop n s)%string = s.
Proof.
  revert s. induction n as [|n IH]; intros [|c s]; simpl; try reflexivity.
  now rewrite app_cons, IH.
Qed.

Lemma length_take_drop n s :
  (String.length (take n s) + String.length (drop n s))%nat = String.length s.
Proof.
  revert s. induction n as [|n IH]; intros [|c s]; simpl; try reflexivity.
  now rewrite IH.
Qed.

Lemma length_app (a b : string) :
  String.length (a ++ b) = (String.length a + String.length b)%nat.
Proof.
  induction a as [|c a IH]; [reflexivity|].
  rewrite app_cons. simpl. now rewrite IH.
Qed.

Lemma drop_app (a b : string) : drop (String.length a) (a ++ b) = b.
Proof.
  induction a as [|c a IH]; [rewrite app_empty; now destruct b|].
  rewrite app_cons. exact IH.
Qed.

Lemma span_le p s : (span p s <= String.length s)%nat.
Proof.
  induction s as [|c s IH]; simpl; [lia|]. destruct (p c); simpl; lia.
Qed.

Lemma span_take p s : string_forall p (take (span p s) s) = true.
Proof.
  induction s as [|c s IH]; simpl; [reflexivity|].
  destruct (p c) eqn:E; simpl; [now rewrite E | reflexivity].
Qed.

Lemma length_take_span p s : String.length (take (span p s) s) = span p s.
Proof.
  induction s as [|c s IH]; simpl; [reflexivity|].
  destruct (p c); simpl; [now rewrite IH | reflexivity].
Qed.

Lemma span_all p s : string_forall p s = true -> span p s = String.length s.
Proof.
  induction s as [|c s IH]; simpl; [reflexivity|].
  intros H. apply andb_true_iff in H as [-> H]. now rewrite IH.
Qed.

Lemma span_full p s : span p s = String.length s -> string_forall p s = true.
Proof.
  induction s as [|c s IH]; simpl; [reflexivity|].
  destruct (p c); [|discriminate]. intros [= H]. now apply IH.
Qed.

(** The run of [p] ends where a character fails [p]. *)
Lemma span_app p (a b : string) :
  string_forall p a = true -> p (char_at b 0) = false ->
  span p (a ++ b) = String.length a.
Proof.
  intros Ha Hb. induction a as [|c a IH].
  - rewrite app_empty. destruct b as [|c b]; simpl; [reflexivity|].
    change (char_at (String c b) 0) with c in Hb. now rewrite Hb.
  - rewrite app_cons. simpl in *.
    apply andb_true_iff in Ha as [-> Ha]. now rewrite IH.
Qed.

Lemma char_at_NUL s k :
  c_string s ->
  Ascii.eqb (char_at s k) NUL = true <-> (String.length s <= k)%nat.
Proof.
  unfold c_string. revert k.
  induction s as [|c s IH]; intros k H.
  - replace (char_at "" k) with NUL by (now destruct k).
    cbn [String.length]. split; [lia | reflexivity].
  - cbn [has_char] in H. apply orb_false_iff in H as [Hc Hs].
    destruct k as [|k].
    + change (char_at (String c s) 0) with c.
      rewrite Ascii.eqb_sym, Hc. cbn [String.length].
      split; [discriminate | lia].
    + change (char_at (String c s) (S k)) with (char_at s k).
      rewrite (IH k Hs). cbn [String.length]. lia.
Qed.

Lemma strtol_end_le s : (snd (strtol s) <= String.length s)%nat.
Proof.
  unfold strtol.
  set (i := span isspace s). set (s1 := drop i s).
  set (j := if _ || _ then 1%nat else 0%nat). set (s2 := drop j s1).
  destruct (span isdigit s2) as [|n] eqn:E; simpl; [lia|].
  rewrite <- E.
  pose proof (span_le isdigit s2). pose proof (length_take_drop j s1).
  pose proof (length_take_drop i s).
  assert (String.length (take i s) = i) by apply length_take_span.
  assert (j <= String.length (take j s1))%nat.
  { subst j. destruct (_ || _) eqn:Q; [|lia].
    destruct s1 as [|c r]; simpl; [|lia]. discriminate Q. }
  fold s1 in H1. fold s2 in H0. lia.
Qed.

Lemma isdigit_not_space c : isdigit c = true -> isspace c = false.
Proof.
  unfold isdigit, isspace, in_range. intros H.
  apply andb_true_iff in H as [H1 H2]. apply Z.leb_le in H1, H2.
  apply orb_false_iff. split.
  - apply Z.eqb_neq. lia.
  - apply andb_false_iff. right. apply Z.leb_gt. lia.
Qed.

Lemma isdigit_not_sign c :
  isdigit c = true -> Ascii.eqb c "-" = false /\ Ascii.eqb c "+" = false.
Proof.
  intros H. split; apply not_true_is_false; intros E;
    apply Ascii.eqb_eq in E; subst c; discriminate H.
Qed.

(** [strtol] reads a non-empty string to its end exactly when the string is
    white space, an optional sign and one digit or more. *)
Lemma strtol_whole s :
  s <> "" /\ snd (strtol s) = String.length s <-> base10_integer s.
Proof.
  split.
  - intros [Hne He]. unfold strtol in He.
    set (i := span isspace s) in *. set (s1 := drop i s) in *.
    set (j := if _ || _ then 1%nat else 0%nat) in *.
    set (s2 := drop j s1) in *.
    destruct (span isdigit s2) as [|n] eqn:En; cbn [snd] in He.
    { destruct s; [now contradiction Hne | discriminate He]. }
    assert (Hj : String.length (take j s1) = j /\
                 (take j s1 = "" \/ take j s1 = "+" \/ take j s1 = "-")).
    { subst j. destruct (_ || _) eqn:Q; [|simpl; auto].
      destruct s1 as [|c r]; [discriminate Q|].
      change (char_at (String c r) 0) with c in Q.
      split; [reflexivity|]. simpl.
      apply orb_true_iff in Q as [Q|Q]; apply Ascii.eqb_eq in Q; subst c;
        auto. }
    destruct Hj as [Lj Sj].
    pose proof (length_take_drop i s) as L1.
    pose proof (length_take_drop j s1) as L2.
    pose proof (length_take_span isspace s) as L3.
    fold i in L3. fold s1 in L1. fold s2 in L2.
    exists (take i s), (take j s1), s2. repeat split.
    + unfold s2. rewrite take_drop. unfold s1. now rewrite take_drop.
    + apply span_take.
    + exact Sj.
    + intros ->. discriminate En.
    + apply span_full. lia.
  - intros (ws & sg & ds & -> & Hws & Hsg & Hds & Hd).
    destruct ds as [|d ds]; [now contradiction Hds|]. clear Hds.
    pose proof Hd as Hd'. cbn [string_forall] in Hd'.
    apply andb_true_iff in Hd' as [Dd _].
    destruct (isdigit_not_sign d Dd) as [Nm Np].
    assert (Hsp : isspace (char_at (sg ++ String d ds) 0) = false).
    { destruct Hsg as [->|[->| ->]]; [|reflexivity|reflexivity].
      rewrite app_empty. now apply isdigit_not_space. }
    split.
    { intros E. apply (f_equal String.length) in E.
      rewrite !length_app in E. simpl in E. lia. }
    unfold strtol. rewrite (span_app _ _ _ Hws Hsp), drop_app.
    assert (J : exists j,
      (if Ascii.eqb (char_at (sg ++ String d ds) 0) "-"
          || Ascii.eqb (char_at (sg ++ String d ds) 0) "+"
       then 1%nat else 0%nat) = j /\
      drop j (sg ++ String d ds) = String d ds /\ j = String.length sg).
    { destruct Hsg as [->|[->| ->]].
      - rewrite app_empty. change (char_at (String d ds) 0) with d.
        rewrite Nm, Np. exists 0%nat. repeat split.
      - exists 1%nat. repeat split.
      - exists 1%nat. repeat split. }
    destruct J as (j & -> & -> & ->).
    rewrite (span_all _ _ Hd). cbn [String.length snd].
    rewrite !length_app. cbn [String.length]. lia.
Qed.

(** The test [builtin_exit] makes on [endptr] lets through exactly the
    base-10 integers. *)
Lemma exit_test_integer arg :
  c_string arg ->
  negb (Ascii.eqb (char_at arg (snd (strtol arg))) NUL)
  || Ascii.eqb (char_at arg (snd (strtol arg))) (char_at arg 0) = false
  <-> base10_integer arg.
Proof.
  intros C. rewrite <- strtol_whole.
  pose proof (strtol_end_le arg) as Le.
  pose proof (char_at_NUL arg (snd (strtol arg)) C) as E.
  pose proof (char_at_NUL arg 0 C) as E0.
  rewrite orb_false_iff, negb_false_iff. split.
  - intros [A B]. rewrite A in E.
    apply Ascii.eqb_eq in A. rewrite A, Ascii.eqb_sym in B.
    split; [|apply proj1 in E; specialize (E eq_refl); lia].
    intros ->. discriminate B.
  - intros [Hne Hl].
    assert (A : Ascii.eqb (char_at arg (snd (strtol arg))) NUL = true)
      by (apply E; lia).
    split; [exact A|]. apply Ascii.eqb_eq in A. rewrite A, Ascii.eqb_sym.
    apply not_true_is_false. intros T. apply E0 in T.
    destruct arg; [now contradiction Hne | simpl in T; lia].
Qed.

(** ** exit *)

Lemma word_count_two cmd w0 arg :
  words cmd = [w0; arg] -> word_count cmd = 2 /\ word cmd 1 = arg.
Proof. unfold word_count, word. intros ->. split; reflexivity. Qed.

(** [builtin_exit] with one argument, by the outcome of its test. *)
Lemma builtin_exit_one_arg cmd redir_list st :
  word_count cmd = 2 ->
  builtin_exit cmd redir_list st =
  if negb (Ascii.eqb (char_at (word cmd 1) (snd (strtol (word cmd 1)))) NUL)
     || Ascii.eqb (char_at (word cmd 1) (snd (strtol (word cmd 1))))
                  (char_at (word cmd 1) 0)
  then
    (Returns (-1),
     with_fd_log
       (fd_log st ++ [(get_pseudo_fd redir_list STDERR_FILENO,
                       msg "exit: Non-numeric value given")]) st)
  else
    (Exits (int_of_long (fst (strtol (word cmd 1)))),
     with_params_status (int_of_long (fst (strtol (word cmd 1)))) st).
Proof.
  intros W. unfold builtin_exit. rewrite W.
  change (2 >? 2) with false. change (2 =? 2) with true. cbv iota.
  destruct (strtol (word cmd 1)) as [val endptr]. cbn [fst snd].
  destruct (_ || _); reflexivity.
Qed.

(** C5.  [exit] with one argument ends the process only when the argument is
    a base-10 integer read to its end with at least one digit, and then it
    does end it; any other argument ("12x", the empty string) makes it
    return -1 with the process still running, and so do two arguments or
    more. *)
Theorem builtin_exit_argument_check
    (cmd : command) (redir_list : list builtin_redir) (st : shell) :
  (forall w0 arg, words cmd = [w0; arg] -> c_string arg ->
     (forall code, fst (builtin_exit cmd redir_list st) = Exits code ->
                   base10_integer arg) /\
     (base10_integer arg ->
      fst (builtin_exit cmd redir_list st)
      = Exits (int_of_long (fst (strtol arg)))) /\
     (~ base10_integer arg ->
      fst (builtin_exit cmd redir_list st) = Returns (-1))) /\
  (2 < word_count cmd ->
   fst (builtin_exit cmd redir_list st) = Returns (-1)) /\
  fst (builtin_exit (Command ["exit"; "12x"]) redir_list st) = Returns (-1) /\
  fst (builtin_exit (Command ["exit"; ""]) redir_list st) = Returns (-1).
Proof.
  split; [|split; [|split; reflexivity]].
  - intros w0 arg Hw C. apply word_count_two in Hw as [W A].
    rewrite (builtin_exit_one_arg _ _ _ W), A.
    pose proof (exit_test_integer arg C) as T.
    destruct (_ || _); cbn [fst].
    + split; [intros code [=]|]. split; [|reflexivity].
      intros B. apply T in B. discriminate B.
    + split; [intros code _; now apply T|]. split; [reflexivity|].
      intros N. contradiction N. now apply T.
  - intros W. unfold builtin_exit.
    replace (word_count cmd >? 2) with true by (symmetry; apply Z.gtb_lt; lia).
    reflexivity.
Qed.

(** C5 at work: "42" ends the process with status 42, "4 2" does not. *)
Lemma builtin_exit_argument_check_witness :
  fst (builtin_exit (Command ["exit"; "42"]) [] (boot ∅)) = Exits 42 /\
  fst (builtin_exit (Command ["exit"; "4 2"]) [] (boot ∅)) = Returns (-1) /\
  fst (builtin_exit (Command ["exit"; "1"; "2"]) [] (boot ∅)) = Returns (-1).
Proof.
  split; [|split].
  - apply (proj1 (proj2 (proj1
             (builtin_exit_argument_check (Command ["exit"; "42"]) [] (boot ∅))
             "exit" "42" eq_refl eq_refl))).
    exists "", "", "42". repeat split; auto.
  - apply (proj2 (proj2 (proj1
             (builtin_exit_argument_check (Command ["exit"; "4 2"]) [] (boot ∅))
             "exit" "4 2" eq_refl eq_refl))).
    intros B. apply strtol_whole in B as [_ B]. vm_compute in B.
    discriminate B.
  - apply (proj1 (proj2
             (builtin_exit_argument_check (Command ["exit"; "1"; "2"]) []
                (boot ∅)))).
    reflexivity.
Defined.

(** ** fg *)

Lemma builtin_fg_unresolved wait_on_fg_job redir_list job_id st s :
  sig_log s = sig_log st -> joblist s = joblist st ->
  fst (jobs_get_pgid job_id st) < 0 ->
  exists s',
    (do pgid <- jobs_get_pgid job_id;
     do failed <-
       (if pgid <? 0 then modify (with_errno EINVAL) ;; ret true
        else
          kill (- pgid) SIGCONT ;;
          do rc <- wait_on_fg_job job_id;
          ret (rc <? 0));
     if failed : bool then
       do e <- gets errno;
       dprintf (get_pseudo_fd redir_list STDERR_FILENO)
               ("fg: " ++ strerror e)%string ;;
       ret (-1)
     else ret 0) s = (-1, s') /\ sig_log s' = sig_log st.
Proof.
  intros Hs Hj Hp. unfold jobs_get_pgid in *. run. cbn [fst] in Hp.
  rewrite Hj. apply Z.ltb_lt in Hp. rewrite Hp. cbn.
  eexists. split; [reflexivity | exact Hs].
Qed.

(** C8.  [fg] alone with an empty job list returns -1 after sending "No jobs"
    to the descriptor the shim gives for standard error.  [fg] on a job whose
    process group does not resolve (the first job of the list when alone,
    the number read from the argument otherwise) returns -1 and sends no
    signal. *)
Theorem builtin_fg_failures
    (wait_on_fg_job : Z -> M Z)
    (cmd : command) (redir_list : list builtin_redir) (st : shell) :
  (word_count cmd = 1 -> joblist st = [] ->
   builtin_fg wait_on_fg_job cmd redir_list st =
   (-1, with_fd_log
          (fd_log st ++ [(get_pseudo_fd redir_list STDERR_FILENO,
                          msg "No jobs")]) st)) /\
  (forall j rest, word_count cmd = 1 -> joblist st = j :: rest ->
     fst (jobs_get_pgid (jid j) st) < 0 ->
     fst (builtin_fg wait_on_fg_job cmd redir_list st) = -1 /\
     sig_log (snd (builtin_fg wait_on_fg_job cmd redir_list st)) = sig_log st)
  /\
  (forall w0 arg, words cmd = [w0; arg] ->
     fst (jobs_get_pgid (fst (strtol arg)) st) < 0 ->
     fst (builtin_fg wait_on_fg_job cmd redir_list st) = -1 /\
     sig_log (snd (builtin_fg wait_on_fg_job cmd redir_list st)) = sig_log st).
Proof.
  split; [|split].
  - intros W J. unfold builtin_fg. rewrite W.
    change (1 =? 1) with true. cbv iota.
    unfold jobs_get_joblist_size. run. rewrite J. reflexivity.
  - intros j rest W J P.
    enough (E : exists s',
               builtin_fg wait_on_fg_job cmd redir_list st = (-1, s') /\
               sig_log s' = sig_log st)
      by (destruct E as (s' & -> & Hs); split; [reflexivity | exact Hs]).
    unfold builtin_fg. rewrite W.
    change (1 =? 1) with true. cbv iota.
    unfold jobs_get_joblist_size, jobs_get_joblist. unfold bind at 1.
    unfold bind at 1. unfold gets at 1. rewrite J. cbn [length Nat.eqb].
    unfold bind at 1. unfold gets at 1. unfold ret at 1. rewrite J.
    cbn [lookup list_lookup default from_option id].
    apply (builtin_fg_unresolved wait_on_fg_job redir_list (jid j) st st
             eq_refl eq_refl P).
  - intros w0 arg Hw P. apply word_count_two in Hw as [W A].
    enough (E : exists s',
               builtin_fg wait_on_fg_job cmd redir_list st = (-1, s') /\
               sig_log s' = sig_log st)
      by (destruct E as (s' & -> & Hs); split; [reflexivity | exact Hs]).
    unfold builtin_fg. rewrite W, A.
    change (2 =? 1) with false. change (2 =? 2) with true. cbv iota.
    destruct (strtol arg) as [val endp]. cbn [fst] in P.
    unfold bind at 1. destruct (_ || _).
    + eexists. split; reflexivity.
    + unfold ret at 1.
      apply (builtin_fg_unresolved wait_on_fg_job redir_list val st st
               eq_refl eq_refl P).
Qed.

(** C8 at work: [fg] with no job at all, and [fg 3] when only job 1 exists. *)
Lemma builtin_fg_failures_witness :
  builtin_fg (fun _ => ret 0) (Command ["fg"]) [] (boot ∅) =
  (-1, with_fd_log
         (fd_log (boot ∅) ++ [(get_pseudo_fd [] STDERR_FILENO, msg "No jobs")])
         (boot ∅)) /\
  fst (builtin_fg (fun _ => ret 0) (Command ["fg"; "3"]) [] one_job) = -1 /\
  sig_log (snd (builtin_fg (fun _ => ret 0) (Command ["fg"; "3"]) [] one_job))
  = sig_log one_job.
Proof.
  split.
  - apply (proj1 (builtin_fg_failures (fun _ => ret 0)
                    (Command ["fg"]) [] (boot ∅))); reflexivity.
  - apply (proj2 (proj2 (builtin_fg_failures (fun _ => ret 0)
                           (Command ["fg"; "3"]) [] one_job)) "fg" "3").
    + reflexivity.
    + vm_compute. reflexivity.
Defined.

(** For contrast, a job that resolves is sent [SIGCONT] on its group. *)
Example builtin_fg_resolved :
  builtin_fg (fun _ => ret 0) (Command ["fg"; "1"]) [] one_job =
  (0, with_sig_log [(-100, SIGCONT)] one_job).
Proof. reflexivity. Qed.

Example builtin_exit_no_arg :
  fst (builtin_exit (Command ["exit"]) []
         (with_params_status 3 (boot ∅))) = Exits 3.
Proof. reflexivity. Qed.

(** * Further properties *)

(** ** Records by name *)

Lemma find_var_from_find name l i :
  match find_var_from name l i with
  | Some p => l !! (p - i)%nat
  | None => None
  end = List.find (named name) l.
Proof.
  revert i. induction l as [|r l IH]; intros i; simpl; [reflexivity|].
  unfold named at 1. destruct (String.eqb (var_name r) name).
  - now rewrite Nat.sub_diag.
  - rewrite <- (IH (S i)).
    destruct (find_var_from name l (S i)) as [p|] eqn:F; [|reflexivity].
    apply find_var_from_Some in F as [Hle _].
    replace (p - i)%nat with (S (p - S i)) by lia. reflexivity.
Qed.

Lemma record_of_find name st :
  record_of name st = List.find (named name) (var_list st).
Proof.
  unfold record_of. rewrite <- (find_var_from_find name (var_list st) 0).
  destruct (find_var_from name (var_list st) 0); [|reflexivity].
  now rewrite Nat.sub_0_r.
Qed.

Lemma record_of_name name st r :
  record_of name st = Some r -> var_name r = name.
Proof.
  rewrite record_of_find. intros H. apply List.find_some in H as [_ H].
  now apply String.eqb_eq.
Qed.

Lemma record_of_ext name st st' :
  var_list st' = var_list st -> record_of name st' = record_of name st.
Proof. unfold record_of. now intros ->. Qed.

(** What [vars_get] answers, by the record of the name. *)
Lemma vars_get_record name st :
  vars_is_valid_varname name <> 0 ->
  fst (vars_get (Some name) st) =
  match record_of name st with
  | Some r => if var_export r then environ st !! name else var_value r
  | None => environ st !! name
  end.
Proof.
  intros V. rewrite (vars_get_read _ _ V). cbn [fst].
  unfold record_of, deref.
  destruct (find_var_from name (var_list st) 0) as [p|] eqn:F; [|reflexivity].
  apply find_var_from_Some in F as (_ & r & Hr & _).
  rewrite Nat.sub_0_r in Hr. rewrite Hr. reflexivity.
Qed.

Lemma find_alter_other (g : var -> var) M p (l : list var) r :
  (forall x, var_name (g x) = var_name x) ->
  l !! p = Some r -> var_name r <> M ->
  List.find (named M) (alter g p l) = List.find (named M) l.
Proof.
  intros Hg. revert p. induction l as [|x l IH]; intros p Hp Hn;
    [discriminate Hp|].
  destruct p as [|p]; cbn in *.
  - injection Hp as ->. unfold named. rewrite Hg.
    apply String.eqb_neq in Hn. now rewrite Hn.
  - destruct (named M x); [reflexivity|]. now apply IH.
Qed.

Lemma find_alter_same (g : var -> var) N (l : list var) i p :
  (forall x, var_name (g x) = var_name x) ->
  find_var_from N l i = Some p ->
  List.find (named N) (alter g (p - i)%nat l)
  = option_map g (List.find (named N) l).
Proof.
  intros Hg. revert i. induction l as [|x l IH]; intros i; simpl;
    [discriminate|].
  destruct (String.eqb (var_name x) N) eqn:E.
  - intros [= <-]. rewrite Nat.sub_diag. cbn. unfold named.
    now rewrite Hg, E.
  - intros F. pose proof (find_var_from_Some _ _ _ _ F) as [Hle _].
    replace (p - i)%nat with (S (p - S i)) by lia. cbn.
    unfold named at 1 3. rewrite E. now apply IH.
Qed.

Lemma find_remove_other N M l :
  M <> N ->
  List.find (named M) (remove_var_from N l) = List.find (named M) l.
Proof.
  intros Hne. induction l as [|x l IH]; simpl; [reflexivity|].
  destruct (String.eqb (var_name x) N) eqn:E.
  - apply String.eqb_eq in E. unfold named.
    replace (String.eqb (var_name x) M) with false; [reflexivity|].
    symmetry. apply String.eqb_neq. congruence.
  - simpl. destruct (named M x); [reflexivity | exact IH].
Qed.

Lemma find_not_in N l :
  ~ In N (map var_name l) -> List.find (named N) l = None.
Proof.
  induction l as [|x l IH]; simpl; [reflexivity|]. intros H.
  unfold named at 1. destruct (String.eqb (var_name x) N) eqn:E.
  - apply String.eqb_eq in E. tauto.
  - apply IH. tauto.
Qed.

Lemma find_remove_same N l :
  List.NoDup (map var_name l) ->
  List.find (named N) (remove_var_from N l) = None.
Proof.
  induction l as [|x l IH]; simpl; [reflexivity|]. intros H.
  apply List.NoDup_cons_iff in H as [Hx Hl].
  destruct (String.eqb (var_name x) N) eqn:E.
  - apply String.eqb_eq in E. subst N. now apply find_not_in.
  - simpl. unfold named at 1. rewrite E. now apply IH.
Qed.

Lemma remove_var_from_absent N l :
  ~ In N (map var_name l) -> remove_var_from N l = l.
Proof.
  induction l as [|x l IH]; simpl; [reflexivity|]. intros H.
  destruct (String.eqb (var_name x) N) eqn:E.
  - apply String.eqb_eq in E. tauto.
  - rewrite IH; tauto.
Qed.

Lemma remove_var_from_gone N l :
  List.NoDup (map var_name l) -> ~ In N (map var_name (remove_var_from N l)).
Proof.
  induction l as [|x l IH]; simpl; [tauto|]. intros H.
  apply List.NoDup_cons_iff in H as [Hx Hl].
  destruct (String.eqb (var_name x) N) eqn:E.
  - apply String.eqb_eq in E. now subst N.
  - apply String.eqb_neq in E. simpl. intros [?|?]; [congruence|].
    now apply IH.
Qed.

(** A valid name is one [setenv] and [unsetenv] take. *)
Lemma name_rest_no_equals s : name_rest s -> has_char "=" s = false.
Proof.
  induction s as [|c s IH]; cbn [has_char name_rest]; [reflexivity|].
  intros [Hc Hs].
  rewrite (IH Hs), orb_false_r. apply not_true_is_false. intros E.
  apply Ascii.eqb_eq in E. subst c. unfold letter, digit in Hc.
  change (char_code "=") with 61 in Hc.
  destruct Hc as [?|[?|?]]; [lia | lia | discriminate].
Qed.

Lemma valid_no_equals name :
  vars_is_valid_varname name <> 0 -> has_char "=" name = false.
Proof.
  intros V. unfold vars_is_valid_varname in V.
  destruct (is_valid_varname_values name) as [?|H]; [congruence|].
  apply is_valid_varname_grammar in H. destruct name as [|c s]; [easy|].
  destruct H as [Hc Hs]. cbn [has_char].
  rewrite (name_rest_no_equals _ Hs), orb_false_r.
  apply not_true_is_false. intros E. apply Ascii.eqb_eq in E. subst c.
  unfold letter in Hc. change (char_code "=") with 61 in Hc.
  destruct Hc as [?|?]; [lia | discriminate].
Qed.

Lemma valid_env_name name :
  vars_is_valid_varname name <> 0 -> bad_env_name name = false.
Proof.
  intros V. unfold bad_env_name. rewrite (valid_no_equals _ V), orb_false_r.
  destruct name; [|reflexivity]. now contradiction V.
Qed.

(** ** What each operation does to one name *)

Lemma ensure_var_record N st p s1 :
  ensure_var N st = (Some p, s1) ->
  exists r1,
    environ s1 = environ st /\
    find_var_from N (var_list s1) 0 = Some p /\
    var_list s1 !! p = Some r1 /\
    record_of N s1 = Some r1 /\
    r1 = match record_of N st with
         | Some r => r
         | None => Var N (bool_decide (is_Some (environ st !! N))) None
         end /\
    (forall M, M <> N -> record_of M s1 = record_of M st).
Proof.
  intros E. apply ensure_var_found in E as (F & He & _ & _ & _ & _ & _ & Hc).
  pose proof (find_var_from_Some _ _ _ _ F) as (_ & r1 & Hr1 & _).
  rewrite Nat.sub_0_r in Hr1.
  assert (R1 : record_of N s1 = Some r1) by (unfold record_of; now rewrite F).
  exists r1. repeat split; try assumption.
  - destruct Hc as [Hl|(Fn & -> & Hl)].
    + rewrite <- (record_of_ext N st s1 Hl), R1. reflexivity.
    + unfold record_of at 1. rewrite Fn. rewrite Hl in Hr1.
      now injection Hr1 as <-.
  - intros M Hne. destruct Hc as [Hl|(_ & _ & Hl)];
      [now apply record_of_ext|].
    rewrite !record_of_find, Hl. simpl. unfold named at 1. simpl.
    apply String.eqb_neq in Hne. rewrite String.eqb_sym in Hne.
    now rewrite Hne.
Qed.

Lemma ensure_var_none N st s1 :
  ensure_var N st = (None, s1) ->
  var_list s1 = var_list st /\ environ s1 = environ st /\
  record_of N st = None.
Proof.
  unfold ensure_var, find_var, new_var, getenv, record_of. run.
  destruct (find_var_from N (var_list st) 0); [discriminate|].
  destruct (malloc st) as [ok s2] eqn:Em.
  apply malloc_frame in Em as (Hl & He & _).
  destruct ok; simpl; [discriminate|]. intros [= <-]. auto.
Qed.

(** [vars_set] of a valid name, name by name.  Other names keep their record
    and their environment entry.  For the name itself a failure leaves the
    environment alone and at most adds an empty record; a success writes the
    environment when the record is exported (a new record being exported when
    the environment has the name) and the record otherwise. *)
Lemma vars_set_effect N V rc st st' :
  vars_is_valid_varname N <> 0 ->
  vars_set (Some N) (Some V) st = (rc, st') ->
  (forall M, M <> N ->
     record_of M st' = record_of M st /\ environ st' !! M = environ st !! M) /\
  exists r1,
    r1 = match record_of N st with
         | Some r => r
         | None => Var N (bool_decide (is_Some (environ st !! N))) None
         end /\
    ((rc = -1 /\ environ st' = environ st /\
      (record_of N st' = record_of N st \/ record_of N st' = Some r1)) \/
     (rc = 0 /\
      if var_export r1
      then record_of N st' = Some r1 /\ environ st' = <[N := V]> (environ st)
      else record_of N st' = Some (Var (var_name r1) false (Some V)) /\
           environ st' = environ st)).
Proof.
  intros Hv H. unfold vars_set in H. rewrite (valid_test _ Hv) in H.
  unfold bind at 1 in H.
  destruct (ensure_var N st) as [[p|] s1] eqn:E.
  - apply ensure_var_record in E as (r1 & He & F & Hp & R1 & Hr1 & Ho).
    run. unfold deref in H. rewrite Hp in H. cbn [default from_option id] in H.
    destruct (var_export r1) eqn:X.
    + pose proof (setenv_frame _ _ _ _ _ _ H) as (Hl & _).
      apply setenv_result in H as [[-> En]|[-> En]]; rewrite He in En.
      * split.
        { intros M Hne. rewrite (record_of_ext M s1 st' Hl), (Ho M Hne), En.
          split; [reflexivity | now apply lookup_insert_ne]. }
        exists r1. split; [exact Hr1|]. right. split; [reflexivity|].
        rewrite X, (record_of_ext N s1 st' Hl). now split.
      * split.
        { intros M Hne. rewrite (record_of_ext M s1 st' Hl), (Ho M Hne), En.
          now split. }
        exists r1. split; [exact Hr1|]. left. repeat split; auto.
        right. now rewrite (record_of_ext N s1 st' Hl).
    + unfold strdup in H. run.
      destruct (malloc s1) as [ok s2] eqn:Em.
      apply malloc_frame in Em as (Hl & He2 & _).
      destruct ok; injection H as <- <-.
      * cbn [environ with_var_list var_list].
        assert (G : forall x,
                  var_name (Var (var_name x) (var_export x) (Some V))
                  = var_name x) by reflexivity.
        split.
        { intros M Hne. rewrite He2, He. split; [|reflexivity].
          rewrite <- (Ho M Hne), !record_of_find.
          cbn [var_list with_var_list]. rewrite Hl.
          eapply (find_alter_other _ M p _ r1 G Hp).
          apply record_of_name in R1. congruence. }
        exists r1. split; [exact Hr1|]. right. split; [reflexivity|].
        rewrite X. split; [|now rewrite He2].
        rewrite record_of_find. cbn [var_list with_var_list]. rewrite Hl.
        pose proof (find_alter_same _ N _ 0 p G F) as A.
        rewrite Nat.sub_0_r in A. rewrite A, <- record_of_find, R1.
        cbn. now rewrite X.
      * split.
        { intros M Hne. rewrite (record_of_ext M s1 s2 Hl), (Ho M Hne), He2, He.
          now split. }
        exists r1. split; [exact Hr1|]. left. repeat split; [congruence|].
        right. now rewrite (record_of_ext N s1 s2 Hl).
  - injection H as <- <-. apply ensure_var_none in E as (Hl & He & Rn).
    split.
    { intros M _. rewrite (record_of_ext M st s1 Hl), He. now split. }
    eexists. split; [reflexivity|]. left. repeat split; auto.
    left. now apply record_of_ext.
Qed.

(** [vars_export] of a valid name, name by name.  Unless no record can be
    made, the record of the name ends up exported with the private value it
    had, and that value, if there is one, is what [setenv] is given. *)
Lemma vars_export_effect N rc st st' :
  vars_is_valid_varname N <> 0 ->
  vars_export (Some N) st = (rc, st') ->
  (forall M, M <> N ->
     record_of M st' = record_of M st /\ environ st' !! M = environ st !! M) /\
  ((rc = -1 /\ record_of N st = None /\ record_of N st' = None /\
    environ st' = environ st) \/
   exists r1,
     r1 = match record_of N st with
          | Some r => r
          | None => Var N (bool_decide (is_Some (environ st !! N))) None
          end /\
     record_of N st' = Some (Var N true (var_value r1)) /\
     match var_value r1 with
     | Some W =>
         (rc = 0 /\ environ st' = <[N := W]> (environ st)) \/
         (rc = -1 /\ environ st' = environ st)
     | None => rc = 0 /\ environ st' = environ st
     end).
Proof.
  intros Hv H. unfold vars_export in H. rewrite (valid_test _ Hv) in H.
  unfold bind at 1 in H.
  destruct (ensure_var N st) as [[p|] s1] eqn:E.
  - apply ensure_var_record in E as (r1 & He & F & Hp & R1 & Hr1 & Ho).
    pose proof (record_of_name _ _ _ R1) as Hn.
    set (g := fun r => Var (var_name r) true (var_value r)).
    assert (G : forall x, var_name (g x) = var_name x) by reflexivity.
    set (s2 := with_var_list (alter g p (var_list s1)) s1).
    assert (Ho2 : forall M, M <> N -> record_of M s2 = record_of M st).
    { intros M Hne. rewrite <- (Ho M Hne), !record_of_find.
      apply (find_alter_other g M p _ r1 G Hp). congruence. }
    assert (R2 : record_of N s2 = Some (Var N true (var_value r1))).
    { rewrite record_of_find. unfold s2. cbn [var_list with_var_list].
      pose proof (find_alter_same g N _ 0 p G F) as A.
      rewrite Nat.sub_0_r in A. rewrite A, <- record_of_find, R1.
      cbn. unfold g. now rewrite Hn. }
    assert (D : deref p s2 = Var N true (var_value r1)).
    { unfold deref, s2. cbn [var_list with_var_list].
      rewrite list_lookup_alter_eq, Hp. cbn. unfold g. now rewrite Hn. }
    unfold store_export in H. run. fold g in H. fold s2 in H.
    rewrite D in H. cbn [var_value var_name] in H.
    destruct (var_value r1) as [W|] eqn:VW.
    + destruct (setenv N W 1 s2) as [rc' s3] eqn:S.
      pose proof (setenv_frame _ _ _ _ _ _ S) as (Hl & _).
      assert (He2 : environ s2 = environ st) by exact He.
      apply setenv_result in S as [[-> En]|[-> En]]; rewrite He2 in En;
        cbn in H; injection H as <- <-.
      * split.
        { intros M Hne. rewrite (record_of_ext M s2 s3 Hl), (Ho2 M Hne), En.
          split; [reflexivity | now apply lookup_insert_ne]. }
        right. exists r1. split; [exact Hr1|].
        rewrite (record_of_ext N s2 s3 Hl), R2, VW. split; [reflexivity|].
        left. now split.
      * split.
        { intros M Hne. rewrite (record_of_ext M s2 s3 Hl), (Ho2 M Hne), En.
          now split. }
        right. exists r1. split; [exact Hr1|].
        rewrite (record_of_ext N s2 s3 Hl), R2, VW. split; [reflexivity|].
        right. now split.
    + injection H as <- <-.
      assert (He2 : environ s2 = environ st) by exact He.
      split.
      { intros M Hne. rewrite (Ho2 M Hne), He2. now split. }
      right. exists r1. split; [exact Hr1|]. rewrite R2, VW, He2.
      now repeat split.
  - injection H as <- <-. apply ensure_var_none in E as (Hl & He & Rn).
    split.
    { intros M _. rewrite (record_of_ext M st s1 Hl), He. now split. }
    left. repeat split; auto. now rewrite (record_of_ext N st s1 Hl).
Qed.

(** [vars_unset] of a valid name unlinks its first record and removes it from
    the environment, and always returns 0. *)
Lemma vars_unset_effect N st :
  vars_is_valid_varname N <> 0 ->
  vars_unset (Some N) st =
  (0, with_environ (delete N (environ st))
        (with_var_list (remove_var_from N (var_list st)) st)).
Proof.
  intros Hv. unfold vars_unset, remove_var, unsetenv.
  rewrite (valid_test _ Hv), (valid_env_name _ Hv). reflexivity.
Qed.

(** ** The variable store *)

Lemma vars_bad_name (name value : option string) (st : shell) :
  (forall n, name = Some n -> vars_is_valid_varname n = 0) ->
  vars_set name value st = (-1, with_errno EINVAL st) /\
  vars_get name st = (None, with_errno EINVAL st) /\
  vars_unset name st = (-1, with_errno EINVAL st) /\
  vars_export name st = (-1, with_errno EINVAL st).
Proof.
  intros H. unfold vars_set, vars_get, vars_unset, vars_export.
  destruct name as [n|]; [|destruct value; repeat split].
  specialize (H n eq_refl). unfold vars_is_valid_varname in H. rewrite H.
  destruct value; repeat split.
Qed.

(** X1.  A null or malformed name is refused by all four operations alike:
    [vars_set], [vars_unset] and [vars_export] return -1 and [vars_get] NULL,
    [errno] is [EINVAL], and nothing else in the process has changed. *)
Theorem vars_reject_bad_name (name value : option string) (st : shell) :
  (forall n, name = Some n -> vars_is_valid_varname n = 0) ->
  vars_set name value st = (-1, with_errno EINVAL st) /\
  vars_get name st = (None, with_errno EINVAL st) /\
  vars_unset name st = (-1, with_errno EINVAL st) /\
  vars_export name st = (-1, with_errno EINVAL st).
Proof. exact (vars_bad_name name value st). Qed.

Lemma vars_reject_bad_name_witness :
  vars_set (Some "a-b") (Some "1") (boot ∅) = (-1, with_errno EINVAL (boot ∅)) /\
  vars_get (Some "a-b") (boot ∅) = (None, with_errno EINVAL (boot ∅)) /\
  vars_unset (Some "a-b") (boot ∅) = (-1, with_errno EINVAL (boot ∅)) /\
  vars_export (Some "a-b") (boot ∅) = (-1, with_errno EINVAL (boot ∅)).
Proof.
  apply (vars_reject_bad_name (Some "a-b") (Some "1") (boot ∅)).
  intros n [= <-]. reflexivity.
Defined.

Lemma vars_unset_unsets (N : string) (st : shell) :
  vars_is_valid_varname N <> 0 ->
  List.NoDup (names st) ->
  fst (vars_unset (Some N) st) = 0 /\
  record_of N (snd (vars_unset (Some N) st)) = None /\
  environ (snd (vars_unset (Some N) st)) !! N = None /\
  fst (vars_get (Some N) (snd (vars_unset (Some N) st))) = None.
Proof.
  intros Hv Hd. rewrite (vars_unset_effect _ _ Hv). cbn [fst snd].
  assert (R : record_of N
                (with_environ (delete N (environ st))
                   (with_var_list (remove_var_from N (var_list st)) st))
              = None).
  { rewrite record_of_find. cbn [var_list with_environ with_var_list].
    now apply find_remove_same. }
  repeat split; [exact R | apply lookup_delete_eq |].
  rewrite (vars_get_record _ _ Hv), R. apply lookup_delete_eq.
Qed.

(** X2.  In a table without duplicate names, [vars_unset] of a valid name
    returns 0 and leaves the name unset: no record, no environment entry,
    and [vars_get] answers NULL. *)
Theorem vars_unset_then_get (N : string) (st : shell) :
  vars_is_valid_varname N <> 0 ->
  List.NoDup (names st) ->
  fst (vars_unset (Some N) st) = 0 /\
  record_of N (snd (vars_unset (Some N) st)) = None /\
  environ (snd (vars_unset (Some N) st)) !! N = None /\
  fst (vars_get (Some N) (snd (vars_unset (Some N) st))) = None.
Proof. exact (vars_unset_unsets N st). Qed.

Lemma vars_unset_then_get_witness :
  fst (vars_unset (Some "x") private_x) = 0 /\
  record_of "x" (snd (vars_unset (Some "x") private_x)) = None /\
  environ (snd (vars_unset (Some "x") private_x)) !! "x" = None /\
  fst (vars_get (Some "x") (snd (vars_unset (Some "x") private_x))) = None.
Proof.
  apply (vars_unset_then_get "x" private_x).
  - vm_compute. discriminate.
  - repeat constructor. intros H. inversion H.
Defined.

(** X3.  Unsetting twice is unsetting once: in a table without duplicate
    names the second [vars_unset] of a valid name returns 0 and changes
    nothing. *)
Theorem vars_unset_twice (N : string) (st : shell) :
  vars_is_valid_varname N <> 0 ->
  List.NoDup (names st) ->
  vars_unset (Some N) (snd (vars_unset (Some N) st))
  = (0, snd (vars_unset (Some N) st)).
Proof.
  intros Hv Hd. rewrite !(vars_unset_effect _ _ Hv).
  cbn [snd var_list environ with_environ with_var_list].
  rewrite delete_delete_eq.
  rewrite (remove_var_from_absent N (remove_var_from N (var_list st)))
    by now apply remove_var_from_gone.
  reflexivity.
Qed.

Lemma vars_unset_twice_witness :
  vars_unset (Some "x") (snd (vars_unset (Some "x") private_x))
  = (0, snd (vars_unset (Some "x") private_x)).
Proof.
  apply (vars_unset_twice "x" private_x).
  - vm_compute. discriminate.
  - repeat constructor. intros H. inversion H.
Defined.

(** [vars_get] of a name that is not valid answers NULL in every state. *)
Lemma vars_get_invalid M st :
  vars_is_valid_varname M = 0 -> fst (vars_get (Some M) st) = None.
Proof.
  intros H. unfold vars_get. unfold vars_is_valid_varname in H. now rewrite H.
Qed.

(** Two states that agree on the record and the environment entry of a name
    answer [vars_get] of it alike. *)
Lemma vars_get_same M st st' :
  record_of M st' = record_of M st ->
  environ st' !! M = environ st !! M ->
  fst (vars_get (Some M) st') = fst (vars_get (Some M) st).
Proof.
  intros R E. destruct (Z.eq_dec (vars_is_valid_varname M) 0) as [Z0|Z1].
  - now rewrite !vars_get_invalid.
  - now rewrite !(vars_get_record _ _ Z1), R, E.
Qed.

(** X4.  [vars_unset] of one name leaves every other name as it reads. *)
Theorem vars_unset_other (name : option string) (M : string) (st : shell) :
  name <> Some M ->
  fst (vars_get (Some M) (snd (vars_unset name st)))
  = fst (vars_get (Some M) st).
Proof.
  intros Hne. destruct name as [N|]; [|now apply vars_get_ext].
  destruct (Z.eq_dec (vars_is_valid_varname N) 0) as [Z0|Z1].
  - unfold vars_unset. unfold vars_is_valid_varname in Z0. rewrite Z0.
    now apply vars_get_ext.
  - rewrite (vars_unset_effect _ _ Z1). cbn [snd].
    assert (NM : M <> N) by congruence.
    apply vars_get_same.
    + rewrite !record_of_find. cbn [var_list with_environ with_var_list].
      now apply find_remove_other.
    + cbn [environ with_environ]. apply lookup_delete_ne. congruence.
Qed.

Lemma vars_unset_other_witness :
  fst (vars_get (Some "x") (snd (vars_unset (Some "y") private_x)))
  = fst (vars_get (Some "x") private_x).
Proof.
  apply (vars_unset_other (Some "y") "x" private_x). discriminate.
Defined.

(** X5.  [vars_set] of one name, whether it succeeds or fails, leaves every
    other name as it reads. *)
Theorem vars_set_other
    (name value : option string) (M : string) (st : shell) :
  name <> Some M ->
  fst (vars_get (Some M) (snd (vars_set name value st)))
  = fst (vars_get (Some M) st).
Proof.
  intros Hne.
  destruct name as [N|], value as [V|]; try now apply vars_get_ext.
  destruct (Z.eq_dec (vars_is_valid_varname N) 0) as [Z0|Z1].
  - unfold vars_set. unfold vars_is_valid_varname in Z0. rewrite Z0.
    now apply vars_get_ext.
  - destruct (vars_set (Some N) (Some V) st) as [rc st'] eqn:S.
    apply (vars_set_effect _ _ _ _ _ Z1) in S as [O _].
    assert (NM : M <> N) by congruence.
    destruct (O M NM). now apply vars_get_same.
Qed.

Lemma vars_set_other_witness :
  fst (vars_get (Some "x") (snd (vars_set (Some "y") (Some "2") private_x)))
  = fst (vars_get (Some "x") private_x).
Proof.
  apply (vars_set_other (Some "y") (Some "2") "x" private_x). discriminate.
Defined.

(** X6.  An unexported variable does not reach the environment: when the
    record of a valid name is not exported, or the name has no record and is
    not in the environment, [vars_set] leaves the environment as it was,
    whether it succeeds or fails. *)
Theorem vars_set_private_stays_private (N V : string) (st : shell) :
  vars_is_valid_varname N <> 0 ->
  match record_of N st with
  | Some r => var_export r = false
  | None => environ st !! N = None
  end ->
  environ (snd (vars_set (Some N) (Some V) st)) = environ st.
Proof.
  intros Hv P. destruct (vars_set (Some N) (Some V) st) as [rc st'] eqn:S.
  apply (vars_set_effect _ _ _ _ _ Hv) in S as [_ (r1 & Hr1 & C)].
  cbn [snd]. destruct C as [(_ & E & _)|(_ & C)]; [exact E|].
  assert (X : var_export r1 = false).
  { subst r1. destruct (record_of N st); [exact P|]. cbn. rewrite P.
    apply bool_decide_eq_false_2. intros [? ?]; discriminate. }
  rewrite X in C. tauto.
Qed.

Lemma vars_set_private_stays_private_witness :
  environ (snd (vars_set (Some "x") (Some "2") private_x)) = environ private_x.
Proof.
  apply (vars_set_private_stays_private "x" "2" private_x).
  - vm_compute. discriminate.
  - reflexivity.
Defined.

Lemma vars_set_exported_env (N V : string) (st st' : shell) :
  vars_is_valid_varname N <> 0 ->
  match record_of N st with
  | Some r => var_export r = true
  | None => is_Some (environ st !! N)
  end ->
  vars_set (Some N) (Some V) st = (0, st') ->
  environ st' = <[N := V]> (environ st) /\
  exists r',
    record_of N st' = Some r' /\ var_export r' = true /\
    var_value r' = match record_of N st with
                   | Some r => var_value r
                   | None => None
                   end.
Proof.
  intros Hv P S.
  apply (vars_set_effect _ _ _ _ _ Hv) in S as [_ (r1 & Hr1 & C)].
  destruct C as [([=] & _)|(_ & C)].
  assert (X : var_export r1 = true).
  { subst r1. destruct (record_of N st); [exact P|]. cbn.
    now apply bool_decide_eq_true_2. }
  rewrite X in C. destruct C as [R E]. split; [exact E|].
  exists r1. repeat split; [exact R | exact X |].
  subst r1. now destruct (record_of N st).
Qed.

(** X7.  An exported variable lives in the environment only: when the record
    of a valid name is exported, or the name has no record and is in the
    environment, a successful [vars_set] writes the environment entry and
    stores no private copy (the record keeps the private value it had, none
    for a new record). *)
Theorem vars_set_exported_writes_env (N V : string) (st st' : shell) :
  vars_is_valid_varname N <> 0 ->
  match record_of N st with
  | Some r => var_export r = true
  | None => is_Some (environ st !! N)
  end ->
  vars_set (Some N) (Some V) st = (0, st') ->
  environ st' = <[N := V]> (environ st) /\
  exists r',
    record_of N st' = Some r' /\ var_export r' = true /\
    var_value r' = match record_of N st with
                   | Some r => var_value r
                   | None => None
                   end.
Proof. exact (vars_set_exported_env N V st st'). Qed.

Lemma vars_set_exported_writes_env_witness :
  environ (snd (vars_set (Some "PATH") (Some "/bin")
                  (boot {[ "PATH" := "/usr/bin" ]})))
  = <[ "PATH" := "/bin" ]> (environ (boot {[ "PATH" := "/usr/bin" ]})) /\
  exists r',
    record_of "PATH" (snd (vars_set (Some "PATH") (Some "/bin")
                             (boot {[ "PATH" := "/usr/bin" ]}))) = Some r' /\
    var_export r' = true /\
    var_value r' = match record_of "PATH" (boot {[ "PATH" := "/usr/bin" ]}) with
                   | Some r => var_value r
                   | None => None
                   end.
Proof.
  apply (vars_set_exported_writes_env "PATH" "/bin"
           (boot {[ "PATH" := "/usr/bin" ]})).
  - vm_compute. discriminate.
  - cbn. eauto.
  - reflexivity.
Defined.



(** X9.  [vars_export] pushes the private value of the record: when the
    record of a valid name holds a private value, a successful [vars_export]
    makes that value the environment entry and the answer of [vars_get],
    whatever the environment held before, also for a record that was
    exported already. *)
Theorem vars_export_pushes_private_value
    (N W : string) (r : var) (st s1 : shell) :
  vars_is_valid_varname N <> 0 ->
  record_of N st = Some r ->
  var_value r = Some W ->
  vars_export (Some N) st = (0, s1) ->
  environ s1 !! N = Some W /\ fst (vars_get (Some N) s1) = Some W.
Proof.
  intros Hv R Hw E.
  apply (vars_export_effect _ _ _ _ Hv) in E
    as [_ [([=] & _)|(r1 & Hr1 & R1 & C)]].
  rewrite R in Hr1. subst r1. rewrite Hw in C.
  destruct C as [(_ & En)|([=] & _)].
  assert (L : environ s1 !! N = Some W)
    by (rewrite En; apply lookup_insert_eq).
  split; [exact L|]. now rewrite (vars_get_record _ _ Hv), R1.
Qed.

(** X9 at work: [x] is set to "1" and exported, then set to "2", which goes
    to the environment; exporting it again brings "1" back. *)
Lemma vars_export_pushes_private_value_witness :
  fst (vars_get (Some "x")
         (run_ops [OpExport (Some "x"); OpSet (Some "x") (Some "2")] private_x))
  = Some "2" /\
  environ (run_ops [OpExport (Some "x"); OpSet (Some "x") (Some "2");
                    OpExport (Some "x")] private_x) !! "x" = Some "1" /\
  fst (vars_get (Some "x")
         (run_ops [OpExport (Some "x"); OpSet (Some "x") (Some "2");
                   OpExport (Some "x")] private_x)) = Some "1".
Proof.
  split; [reflexivity|].
  apply (vars_export_pushes_private_value "x" "1" (Var "x" true (Some "1"))
           (run_ops [OpExport (Some "x"); OpSet (Some "x") (Some "2")]
              private_x)).
  - vm_compute. discriminate.
  - reflexivity.
  - reflexivity.
  - reflexivity.
Defined.

(** X10.  [vars_export] of a name that holds no private value changes no
    environment entry; when it returns 0 the name has an exported record
    without a private value, so that the next [vars_set] goes to the
    environment. *)
Theorem vars_export_without_value (N : string) (rc : Z) (st s1 : shell) :
  vars_is_valid_varname N <> 0 ->
  match record_of N st with
  | Some r => var_value r = None
  | None => True
  end ->
  vars_export (Some N) st = (rc, s1) ->
  environ s1 = environ st /\
  (rc = 0 -> record_of N s1 = Some (Var N true None)).
Proof.
  intros Hv P E.
  apply (vars_export_effect _ _ _ _ Hv) in E
    as [_ [(-> & _ & _ & En)|(r1 & Hr1 & R1 & C)]].
  - split; [exact En | discriminate].
  - assert (X : var_value r1 = None).
    { subst r1. now destruct (record_of N st). }
    rewrite X in C, R1. destruct C as [_ En]. now split.
Qed.

Lemma vars_export_without_value_witness :
  environ (snd (vars_export (Some "y") private_x)) = environ private_x /\
  (fst (vars_export (Some "y") private_x) = 0 ->
   record_of "y" (snd (vars_export (Some "y") private_x))
   = Some (Var "y" true None)).
Proof.
  apply (vars_export_without_value "y" _ private_x).
  - vm_compute. discriminate.
  - exact I.
  - reflexivity.
Defined.

Lemma vars_cleanup_from_nil l : vars_cleanup_from l = [].
Proof. induction l as [|x l IH]; [reflexivity | exact IH]. Qed.

(** X11.  [vars_cleanup] empties the private table and leaves the environment
    alone: afterwards every valid name reads as the environment has it, so
    private variables are gone and exported ones are still there. *)
Theorem vars_cleanup_keeps_environment (N : string) (st : shell) :
  vars_is_valid_varname N <> 0 ->
  var_list (snd (vars_cleanup st)) = [] /\
  environ (snd (vars_cleanup st)) = environ st /\
  fst (vars_get (Some N) (snd (vars_cleanup st))) = environ st !! N.
Proof.
  intros Hv. unfold vars_cleanup, modify. cbn [snd].
  rewrite vars_cleanup_from_nil. repeat split.
  rewrite (vars_get_record _ _ Hv). reflexivity.
Qed.

Lemma vars_cleanup_keeps_environment_witness :
  var_list (snd (vars_cleanup private_x)) = [] /\
  environ (snd (vars_cleanup private_x)) = environ private_x /\
  fst (vars_get (Some "x") (snd (vars_cleanup private_x)))
  = environ private_x !! "x".
Proof.
  apply (vars_cleanup_keeps_environment "x" private_x).
  vm_compute. discriminate.
Defined.

(** *** The names in the table *)

Lemma ensure_var_names_shape name v st st' :
  ensure_var name st = (v, st') ->
  names st' = names st \/ names st' = name :: names st.
Proof.
  unfold names. destruct v as [p|].
  - intros H. apply ensure_var_found in H as (_ & _ & _ & _ & _ & _ & _ & H).
    destruct H as [->|(_ & _ & ->)]; [now left | now right].
  - intros H. apply ensure_var_none in H as (-> & _). now left.
Qed.

Lemma vars_set_names_shape name value st :
  names (snd (vars_set name value st)) = names st \/
  exists n, name = Some n /\ vars_is_valid_varname n <> 0 /\
            names (snd (vars_set name value st)) = n :: names st.
Proof.
  destruct (vars_set name value st) as [rc st'] eqn:S. cbn [snd].
  unfold vars_set in S.
  destruct name as [name|], value as [value|];
    try (injection S as <- <-; now left).
  destruct (is_valid_varname name =? 0) eqn:Vn;
    [injection S as <- <-; now left|].
  apply Z.eqb_neq in Vn.
  unfold bind at 1 in S.
  destruct (ensure_var name st) as [v s1] eqn:E.
  apply ensure_var_names_shape in E.
  assert (K : names st' = names s1 ->
              names st' = names st \/
              exists n, Some name = Some n /\ vars_is_valid_varname n <> 0 /\
                        names st' = n :: names st).
  { intros ->. destruct E as [->| ->]; [now left|]. right. eauto. }
  apply K. clear K E.
  destruct v as [p|]; [|now injection S as <- <-].
  run. destruct (var_export (deref p s1)).
  - apply setenv_frame in S as (Hl & _). unfold names. now rewrite Hl.
  - unfold strdup in S. run. destruct (malloc s1) as [ok s2] eqn:Em.
    apply malloc_frame in Em as (Hl & _).
    destruct ok; injection S as <- <-; unfold names;
      cbn [with_var_list var_list];
      [rewrite names_alter by reflexivity|]; now rewrite Hl.
Qed.

Lemma vars_export_names_shape name st :
  names (snd (vars_export name st)) = names st \/
  exists n, name = Some n /\ vars_is_valid_varname n <> 0 /\
            names (snd (vars_export name st)) = n :: names st.
Proof.
  destruct (vars_export name st) as [rc st'] eqn:S. cbn [snd].
  unfold vars_export in S.
  destruct name as [N|]; [|injection S as <- <-; now left].
  destruct (is_valid_varname N =? 0) eqn:Vn;
    [injection S as <- <-; now left|].
  apply Z.eqb_neq in Vn.
  unfold bind at 1 in S.
  destruct (ensure_var N st) as [v s1] eqn:E.
  apply ensure_var_names_shape in E.
  assert (K : names st' = names s1 ->
              names st' = names st \/
              exists n, Some N = Some n /\ vars_is_valid_varname n <> 0 /\
                        names st' = n :: names st).
  { intros ->. destruct E as [->| ->]; [now left|]. right. eauto. }
  apply K. clear K E.
  destruct v as [p|]; [|now injection S as <- <-].
  unfold store_export in S. run.
  match type of S with context [var_value ?r] => destruct (var_value r) end;
    [|injection S as <- <-; unfold names; cbn [with_var_list var_list];
      now rewrite names_alter].
  match type of S with context [setenv ?a ?b ?c ?d] =>
    destruct (setenv a b c d) as [rc' s2] eqn:S' end.
  apply setenv_frame in S' as (Hl & _). cbn [var_list with_var_list] in Hl.
  assert (Hn : names s2 = names s1).
  { unfold names. rewrite Hl. now apply names_alter. }
  destruct (rc' <? 0); injection S as <- <-; exact Hn.
Qed.

Lemma run_op_names_valid o st :
  Forall (fun n => vars_is_valid_varname n <> 0) (names st) ->
  Forall (fun n => vars_is_valid_varname n <> 0) (names (run_op o st)).
Proof.
  intros F. destruct o as [n v|n|n|n]; cbn [run_op].
  - destruct (vars_set_names_shape n v st) as [->|(m & _ & Hm & ->)]; auto.
  - now rewrite vars_get_names.
  - unfold vars_unset, remove_var, unsetenv. destruct n as [n|]; [|exact F].
    destruct (is_valid_varname n =? 0); [exact F|]. run.
    assert (G : Forall (fun n => vars_is_valid_varname n <> 0)
                  (map var_name (remove_var_from n (var_list st)))).
    { rewrite List.Forall_forall in *. intros x Hx. apply F.
      eapply remove_var_from_incl, Hx. }
    destruct (bad_env_name n); exact G.
  - destruct (vars_export_names_shape n st) as [->|(m & _ & Hm & ->)]; auto.
Qed.

(** X12.  Starting from an empty private table, after any sequence of set,
    get, unset and export calls every record in the table carries a valid
    name: no call with a null or malformed name ever creates a record. *)
Theorem table_names_valid (ops : list store_op) (st : shell) :
  var_list st = [] ->
  Forall (fun n => vars_is_valid_varname n <> 0) (names (run_ops ops st)).
Proof.
  intros E.
  assert (F : Forall (fun n => vars_is_valid_varname n <> 0) (names st)).
  { unfold names. rewrite E. constructor. }
  clear E. revert st F. unfold run_ops.
  induction ops as [|o ops IH]; intros st F; [exact F|].
  apply IH. now apply run_op_names_valid.
Qed.

Lemma table_names_valid_witness :
  Forall (fun n => vars_is_valid_varname n <> 0)
    (names (run_ops [OpSet (Some "a") (Some "1"); OpSet (Some "1a") (Some "2");
                     OpExport (Some "b-c"); OpExport (Some "b")] (boot ∅))).
Proof.
  apply (table_names_valid _ (boot ∅)). reflexivity.
Defined.

(** X13.  The export mark is never taken back and the private value under it
    never rewritten: once the record of a name is exported, any [vars_set],
    [vars_get] or [vars_export] call, on this or any other name, leaves that
    very record in place; only [vars_unset] of the name ends it. *)
Theorem exported_record_stays (N : string) (r : var) (o : store_op)
    (st : shell) :
  record_of N st = Some r ->
  var_export r = true ->
  (forall n, o <> OpUnset n) ->
  record_of N (run_op o st) = Some r.
Proof.
  intros R X Hu.
  pose proof (record_of_name _ _ _ R) as Hn.
  destruct o as [n v|n|n|n]; cbn [run_op].
  - destruct n as [n|], v as [v|]; try (now rewrite <- R; apply record_of_ext).
    destruct (Z.eq_dec (vars_is_valid_varname n) 0) as [Z0|Z1].
    { unfold vars_set. unfold vars_is_valid_varname in Z0. rewrite Z0.
      rewrite <- R. now apply record_of_ext. }
    destruct (vars_set (Some n) (Some v) st) as [rc st'] eqn:S.
    apply (vars_set_effect _ _ _ _ _ Z1) in S as [O (r1 & Hr1 & C)].
    cbn [snd]. destruct (String.eqb_spec N n) as [<-|Hne].
    + rewrite R in Hr1. subst r1. rewrite X in C.
      destruct C as [(_ & _ & [C|C])|(_ & C & _)]; congruence.
    + destruct (O N Hne) as [-> _]. exact R.
  - rewrite <- R. apply record_of_ext.
    pose proof (vars_get_names n st) as G. unfold vars_get, find_var, getenv.
    destruct n as [n|]; [|reflexivity].
    destruct (is_valid_varname n =? 0); [reflexivity|]. run.
    destruct (find_var_from n (var_list st) 0) as [p|]; simpl; [|reflexivity].
    destruct (var_export (deref p st)); reflexivity.
  - now contradiction (Hu n).
  - destruct n as [n|]; [|now rewrite <- R; apply record_of_ext].
    destruct (Z.eq_dec (vars_is_valid_varname n) 0) as [Z0|Z1].
    { unfold vars_export. unfold vars_is_valid_varname in Z0. rewrite Z0.
      rewrite <- R. now apply record_of_ext. }
    destruct (vars_export (Some n) st) as [rc st'] eqn:S.
    apply (vars_export_effect _ _ _ _ Z1) in S as [O C].
    cbn [snd]. destruct (String.eqb_spec N n) as [<-|Hne].
    + destruct C as [(_ & C & _)|(r1 & Hr1 & C & _)]; [congruence|].
      rewrite R in Hr1. subst r1. rewrite C. f_equal.
      destruct r as [rn re rv]. cbn in *. now subst.
    + destruct (O N Hne) as [-> _]. exact R.
Qed.

Lemma exported_record_stays_witness :
  record_of "PATH"
    (run_op (OpSet (Some "PATH") (Some "/bin"))
       (snd (vars_export (Some "PATH") (boot {[ "PATH" := "/usr/bin" ]}))))
  = Some (Var "PATH" true None).
Proof.
  apply (exported_record_stays "PATH" (Var "PATH" true None)).
  - reflexivity.
  - reflexivity.
  - discriminate.
Defined.

(** ** unset and export *)



Lemma builtin_unset_loop_names args st :
  List.NoDup (names st) ->
  List.NoDup (names (snd (builtin_unset_loop args st))).
Proof.
  revert st. induction args as [|x args IH]; intros st N; [exact N|].
  cbn [builtin_unset_loop]. unfold bind.
  destruct (vars_unset (Some x) st) as [rc s1] eqn:U.
  apply IH. replace s1 with (snd (vars_unset (Some x) st)) by now rewrite U.
  now apply vars_unset_names.
Qed.





(** Setting and then exporting a name, as [export name=value] does.  The
    environment ends up with the value set, unless the record was exported
    already and still held a private value: then that older value is pushed
    over the one just set. *)
Lemma set_then_export N V st s1 s2 :
  vars_is_valid_varname N <> 0 ->
  vars_set (Some N) (Some V) st = (0, s1) ->
  vars_export (Some N) s1 = (0, s2) ->
  let final :=
    match record_of N st with
    | Some r => if var_export r then default V (var_value r) else V
    | None => V
    end in
  environ s2 !! N = Some final /\ fst (vars_get (Some N) s2) = Some final.
Proof.
  intros Hv S E final.
  apply (vars_set_effect _ _ _ _ _ Hv) in S as [_ (r1 & Hr1 & C)].
  destruct C as [([=] & _)|(_ & C)].
  apply (vars_export_effect _ _ _ _ Hv) in E
    as [_ [([=] & _)|(r2 & Hr2 & R2 & D)]].
  assert (L : environ s2 !! N = Some final).
  { destruct (var_export r1) eqn:X.
    - destruct C as [R1 E1]. rewrite R1 in Hr2. subst r2.
      assert (F : final = default V (var_value r1)).
      { unfold final. subst r1. destruct (record_of N st) as [r|].
        - now rewrite X.
        - reflexivity. }
      rewrite F. destruct (var_value r1) as [W|].
      + destruct D as [(_ & ->)|([=] & _)]. apply lookup_insert_eq.
      + destruct D as [_ ->]. rewrite E1. apply lookup_insert_eq.
    - destruct C as [R1 E1]. rewrite R1 in Hr2. subst r2. cbn in D.
      assert (F : final = V).
      { unfold final. subst r1. destruct (record_of N st) as [r|].
        - now rewrite X.
        - reflexivity. }
      rewrite F. destruct D as [(_ & ->)|([=] & _)]. apply lookup_insert_eq. }
  split; [exact L|]. now rewrite (vars_get_record _ _ Hv), R2.
Qed.

Lemma set_word_restore cmd i x :
  set_word (set_word cmd i x) i (word cmd i) = cmd.
Proof.
  destruct cmd as [l]. unfold set_word, word. cbn [words]. f_equal.
  rewrite list_insert_insert_eq.
  destruct (l !! i) as [w|] eqn:L; cbn.
  - now apply list_insert_id.
  - apply list_insert_ge. now apply lookup_ge_None.
Qed.

(** The loop of [builtin_export] returns 0 or -1; with 0 the words are as
    they were, with -1 at most one word differs, cut at its [=]. *)
Lemma builtin_export_loop_words k i cmd st rc cmd' st' :
  builtin_export_loop k i cmd st = ((rc, cmd'), st') ->
  (rc = 0 /\ cmd' = cmd) \/
  (rc = -1 /\
   (cmd' = cmd \/
    exists j v, strchr (word cmd j) "=" = Some v /\
                cmd' = set_word cmd j (take v (word cmd j)))).
Proof.
  revert i cmd st. induction k as [|k IH]; intros i cmd st.
  - intros [= <- <- <-]. now left.
  - cbn [builtin_export_loop].
    destruct (strchr (word cmd i) "=") as [v|] eqn:Sc.
    + unfold bind at 1.
      destruct (vars_set _ _ st) as [rc1 s1].
      destruct (rc1 <? 0).
      { intros [= <- <- <-]. right. split; [reflexivity|]. right. eauto. }
      unfold bind at 1.
      destruct (vars_export _ s1) as [rc2 s2].
      destruct (rc2 <? 0).
      { intros [= <- <- <-]. right. split; [reflexivity|]. right. eauto. }
      rewrite set_word_restore. apply IH.
    + unfold bind at 1.
      destruct (vars_export _ st) as [rc2 s2].
      destruct (rc2 <? 0).
      { intros [= <- <- <-]. right. split; [reflexivity|]. now left. }
      apply IH.
Qed.

(** X15.  [export] returns 0 or -1.  When it returns 0 the command's words
    are as they were before the call, every [=] it overwrote being back in
    place; when it returns -1 at most one word differs: the one at which it
    stopped, left cut at its first [=]. *)
Theorem builtin_export_words
    (cmd : command) (redir_list : list builtin_redir) (st : shell) :
  (fst (fst (builtin_export cmd redir_list st)) = 0 /\
   snd (fst (builtin_export cmd redir_list st)) = cmd) \/
  (fst (fst (builtin_export cmd redir_list st)) = -1 /\
   (snd (fst (builtin_export cmd redir_list st)) = cmd \/
    exists j v, strchr (word cmd j) "=" = Some v /\
                snd (fst (builtin_export cmd redir_list st))
                = set_word cmd j (take v (word cmd j)))).
Proof.
  destruct (builtin_export cmd redir_list st) as [[rc cmd'] st'] eqn:B.
  cbn [fst snd]. unfold builtin_export in B.
  exact (builtin_export_loop_words _ _ _ _ _ _ _ B).
Qed.

(** X16.  [export name=value] splits the word at its first [=], sets the
    name to what follows and exports it.  When it returns 0 the environment
    and [vars_get] hold the value for the name, with one exception: a name
    whose record was exported already and still holds a private value ends
    up with that older private value, which [vars_export] pushes over the
    value just set. *)
Theorem builtin_export_assignment
    (cmd cmd' : command) (redir_list : list builtin_redir)
    (w0 w : string) (v : nat) (st st' : shell) :
  words cmd = [w0; w] ->
  strchr w "=" = Some v ->
  vars_is_valid_varname (take v w) <> 0 ->
  builtin_export cmd redir_list st = ((0, cmd'), st') ->
  let final :=
    match record_of (take v w) st with
    | Some r =>
        if var_export r then default (drop (S v) w) (var_value r)
        else drop (S v) w
    | None => drop (S v) w
    end in
  environ st' !! take v w = Some final /\
  fst (vars_get (Some (take v w)) st') = Some final.
Proof.
  intros Hw Sc Hv H final.
  unfold builtin_export in H. rewrite Hw in H. cbn [length Nat.sub] in H.
  cbn [builtin_export_loop] in H.
  assert (W1 : word cmd 1 = w) by (unfold word; now rewrite Hw).
  rewrite W1, Sc in H.
  assert (W2 : word (set_word cmd 1 (take v w)) 1 = take v w)
    by (unfold word, set_word; now rewrite Hw).
  rewrite W2 in H. unfold bind at 1 in H.
  destruct (vars_set (Some (take v w)) (Some (drop (S v) w)) st)
    as [rc1 s1] eqn:S.
  pose proof (vars_set_effect _ _ _ _ _ Hv S) as [_ (r1 & _ & C1)].
  assert (rc1 = 0 \/ rc1 = -1) as [->| ->] by (destruct C1; tauto);
    [|discriminate H].
  change (0 <? 0) with false in H. cbv iota in H. unfold bind at 1 in H.
  destruct (vars_export (Some (take v w)) s1) as [rc2 s2] eqn:E.
  pose proof (vars_export_effect _ _ _ _ Hv E) as [_ C2].
  assert (rc2 = 0 \/ rc2 = -1) as [->| ->].
  { destruct C2 as [(? & _)|(r2 & _ & _ & D)]; [tauto|].
    destruct (var_value r2); tauto. }
  - change (0 <? 0) with false in H. cbv iota in H.
    cbn [builtin_export_loop] in H. unfold ret in H. injection H as _ <-.
    exact (set_then_export _ _ _ _ _ Hv S E).
  - discriminate H.
Qed.

(** X16 at work: on a new name the value arrives; on [x], exported while it
    held "1", [export x=2] leaves "1". *)
Lemma builtin_export_assignment_witness :
  (environ (snd (builtin_export (Command ["export"; "FOO=a=b"]) [] (boot ∅)))
     !! "FOO" = Some "a=b" /\
   fst (vars_get (Some "FOO")
          (snd (builtin_export (Command ["export"; "FOO=a=b"]) [] (boot ∅))))
   = Some "a=b") /\
  (environ (snd (builtin_export (Command ["export"; "x=2"]) []
                   (snd (vars_export (Some "x") private_x))))
     !! "x" = Some "1" /\
   fst (vars_get (Some "x")
          (snd (builtin_export (Command ["export"; "x=2"]) []
                  (snd (vars_export (Some "x") private_x)))))
   = Some "1").
Proof.
  split.
  - apply (builtin_export_assignment (Command ["export"; "FOO=a=b"])
             (Command ["export"; "FOO=a=b"]) [] "export" "FOO=a=b" 3 (boot ∅)).
    + reflexivity.
    + reflexivity.
    + vm_compute. discriminate.
    + reflexivity.
  - apply (builtin_export_assignment (Command ["export"; "x=2"])
             (Command ["export"; "x=2"]) [] "export" "x=2" 1
             (snd (vars_export (Some "x") private_x))).
    + reflexivity.
    + reflexivity.
    + vm_compute. discriminate.
    + reflexivity.
Defined.

(** X17.  [export] stops at the first word whose name part (the word up to
    its first [=], or the whole word) is not a valid name: it returns -1 with
    [errno] at [EINVAL], leaves the word cut at that [=], and neither this
    word nor any word after it touches the table or the environment. *)
Theorem builtin_export_stops_at_bad_name
    (cmd : command) (redir_list : list builtin_redir)
    (w0 w : string) (rest : list string) (st : shell) :
  words cmd = w0 :: w :: rest ->
  vars_is_valid_varname
    (match strchr w "=" with Some v => take v w | None => w end) = 0 ->
  builtin_export cmd redir_list st =
  ((-1, match strchr w "=" with
        | Some v => set_word cmd 1 (take v w)
        | None => cmd
        end),
   with_errno EINVAL st).
Proof.
  intros Hw Hv. unfold builtin_export. rewrite Hw.
  cbn [length Nat.sub]. cbn [builtin_export_loop].
  assert (W1 : word cmd 1 = w) by (unfold word; now rewrite Hw).
  rewrite W1. destruct (strchr w "=") as [v|].
  - assert (W2 : word (set_word cmd 1 (take v w)) 1 = take v w)
      by (unfold word, set_word; now rewrite Hw).
    rewrite W2. unfold bind at 1.
    destruct (vars_bad_name (Some (take v w)) (Some (drop (S v) w)) st)
      as [-> _]; [now intros n [= <-]|].
    reflexivity.
  - unfold bind at 1.
    destruct (vars_bad_name (Some w) None st) as (_ & _ & _ & ->);
      [now intros n [= <-]|].
    reflexivity.
Qed.

Lemma builtin_export_stops_at_bad_name_witness :
  builtin_export (Command ["export"; "a-b=1"; "c=2"]) [] (boot ∅) =
  ((-1, match strchr "a-b=1" "=" with
        | Some v => set_word (Command ["export"; "a-b=1"; "c=2"]) 1
                      (take v "a-b=1")
        | None => Command ["export"; "a-b=1"; "c=2"]
        end),
   with_errno EINVAL (boot ∅)).
Proof.
  apply (builtin_export_stops_at_bad_name
           (Command ["export"; "a-b=1"; "c=2"]) [] "export" "a-b=1" ["c=2"]).
  - reflexivity.
  - reflexivity.
Defined.

(** ** Numbers in decimal *)

Lemma digit_char_code d :
  0 <= d <= 9 -> char_code (digit_char d) = 48 + d.
Proof.
  intros H. unfold char_code, digit_char.
  rewrite N_ascii_embedding by lia. lia.
Qed.

Lemma digit_char_isdigit d : 0 <= d <= 9 -> isdigit (digit_char d) = true.
Proof.
  intros H. unfold isdigit, in_range. rewrite (digit_char_code _ H).
  apply andb_true_iff. split; apply Z.leb_le; lia.
Qed.

(** The digits written are digits, at least one of them, and they read back
    as the number. *)
Lemma digits_of_spec fuel n acc :
  0 <= n < 10 ^ Z.of_nat fuel ->
  exists ds,
    digits_of fuel n acc = (ds ++ acc)%string /\
    string_forall isdigit ds = true /\
    (fuel <> O -> ds <> "") /\
    forall a rest, digits_value a (ds ++ rest)
                   = digits_value (a * 10 ^ Z.of_nat (String.length ds) + n) rest.
Proof.
  revert n acc. induction fuel as [|fuel IH]; intros n acc Hn.
  - exists "". cbn [digits_of]. repeat split; [congruence|].
    intros a rest. rewrite app_empty. cbn [String.length].
    change (10 ^ Z.of_nat 0) with 1 in *. f_equal. lia.
  - cbn [digits_of].
    assert (Hd : 0 <= n mod 10 <= 9) by (pose proof (Z.mod_pos_bound n 10); lia).
    pose proof (digit_char_isdigit _ Hd) as Di.
    pose proof (digit_char_code _ Hd) as Dc.
    pose proof (Z.div_mod n 10 ltac:(lia)) as Dm.
    destruct (n / 10 =? 0) eqn:Q.
    + apply Z.eqb_eq in Q. exists (String (digit_char (n mod 10)) "").
      repeat split.
      * cbn [string_forall]. now rewrite Di.
      * discriminate.
      * intros a rest. rewrite app_cons, app_empty. cbn [digits_value].
        rewrite Di, Dc. cbn [String.length]. f_equal.
        change (10 ^ Z.of_nat 1) with 10. lia.
    + apply Z.eqb_neq in Q.
      assert (Hq : 0 <= n / 10 < 10 ^ Z.of_nat fuel).
      { split; [apply Z.div_pos; lia|].
        apply Z.div_lt_upper_bound; [lia|].
        rewrite Nat2Z.inj_succ, Z.pow_succ_r in Hn by lia. lia. }
      destruct (IH (n / 10) (String (digit_char (n mod 10)) acc) Hq)
        as (ds & E & F & _ & V).
      exists (ds ++ String (digit_char (n mod 10)) "")%string.
      assert (A : forall x y z : string,
                 ((x ++ y) ++ z)%string = (x ++ y ++ z)%string).
      { intros x y z. induction x as [|c x IHx]; [reflexivity|].
        rewrite !app_cons. now rewrite IHx. }
      repeat split.
      * rewrite E, A. reflexivity.
      * clear -F Di. induction ds as [|c ds IHd].
        { rewrite app_empty. cbn [string_forall]. now rewrite Di. }
        rewrite app_cons. cbn [string_forall] in *.
        apply andb_true_iff in F as [-> F]. now apply IHd.
      * destruct ds; discriminate.
      * intros a rest. rewrite A, V, app_cons, app_empty.
        cbn [digits_value]. rewrite Di, Dc. f_equal.
        rewrite length_app. cbn [String.length].
        rewrite Nat2Z.inj_add, Z.pow_add_r by lia.
        change (10 ^ Z.of_nat 1) with 10. lia.
Qed.

Lemma digits_fuel_enough n : 0 <= n -> n < 10 ^ Z.of_nat (digits_fuel n).
Proof.
  intros H. unfold digits_fuel.
  rewrite Nat2Z.inj_succ, Z2Nat.id by apply Z.log2_nonneg.
  destruct (Z.eq_dec n 0) as [->|Hz]; [reflexivity|].
  pose proof (Z.log2_spec n ltac:(lia)) as [_ L].
  eapply Z.lt_le_trans; [exact L|].
  apply Z.pow_le_mono_l. pose proof (Z.log2_nonneg n). lia.
Qed.

(** [strtol] on a run of digits, bare or after a minus sign. *)
Lemma strtol_digits ds :
  ds <> "" -> string_forall isdigit ds = true ->
  strtol ds = (clamp_long (digits_value 0 ds), String.length ds) /\
  strtol (String "-" ds)
  = (clamp_long (- digits_value 0 ds), S (String.length ds)).
Proof.
  intros Hne Hd. destruct ds as [|d ds]; [now contradiction Hne|].
  pose proof Hd as Hd'. cbn [string_forall] in Hd'.
  apply andb_true_iff in Hd' as [Dd _].
  destruct (isdigit_not_sign d Dd) as [Nm Np].
  pose proof (isdigit_not_space d Dd) as Ns.
  split; unfold strtol.
  - cbn [span]. rewrite Ns. cbn [drop].
    change (char_at (String d ds) 0) with d. rewrite Nm, Np. cbn [orb drop].
    rewrite (span_all _ _ Hd). cbn [String.length]. reflexivity.
  - cbn [span]. change (isspace "-") with false. cbv iota. cbn [drop].
    change (char_at (String "-" (String d ds)) 0) with "-"%char.
    change (Ascii.eqb "-" "-") with true. cbn [orb drop].
    rewrite (span_all _ _ Hd). cbn [String.length]. reflexivity.
Qed.

Lemma string_forall_no_NUL p s :
  p NUL = false -> string_forall p s = true -> c_string s.
Proof.
  intros Hp. unfold c_string. induction s as [|c s IH]; [reflexivity|].
  cbn [string_forall has_char]. intros H.
  apply andb_true_iff in H as [Hc Hs]. rewrite (IH Hs), orb_false_r.
  apply not_true_is_false. intros E. apply Ascii.eqb_eq in E. subst c.
  congruence.
Qed.

(** What [%jd] prints, [strtol] reads back: the whole text, a C string, gives
    the number. *)
Lemma strtol_decimal z :
  LONG_MIN <= z <= LONG_MAX ->
  strtol (decimal z) = (z, String.length (decimal z)) /\
  c_string (decimal z) /\ decimal z <> "".
Proof.
  intros R. unfold decimal.
  assert (C : forall y, LONG_MIN <= y <= LONG_MAX -> clamp_long y = y).
  { intros y Hy. unfold clamp_long. lia. }
  destruct (z <? 0) eqn:Neg.
  - apply Z.ltb_lt in Neg.
    destruct (digits_of_spec (digits_fuel (- z)) (- z) ""
                ltac:(split; [lia | apply digits_fuel_enough; lia]))
      as (ds & E & F & Hne & V).
    assert (Hds : digits_of (digits_fuel (- z)) (- z) "" = ds).
    { rewrite E. clear. induction ds as [|c ds IH]; [reflexivity|].
      rewrite app_cons. now rewrite IH. }
    rewrite Hds. specialize (Hne ltac:(discriminate)).
    destruct (strtol_digits ds Hne F) as [_ ->].
    assert (V' : digits_value 0 ds = - z).
    { specialize (V 0 ""). rewrite <- E, Hds in V. rewrite V.
      cbn [digits_value]. lia. }
    rewrite V'. rewrite C by lia. repeat split.
    + f_equal. lia.
    + unfold c_string. cbn [has_char].
      change (Ascii.eqb NUL "-") with false. cbn [orb].
      now apply (string_forall_no_NUL isdigit).
    + discriminate.
  - apply Z.ltb_ge in Neg.
    destruct (digits_of_spec (digits_fuel z) z ""
                ltac:(split; [lia | apply digits_fuel_enough; lia]))
      as (ds & E & F & Hne & V).
    assert (Hds : digits_of (digits_fuel z) z "" = ds).
    { rewrite E. clear. induction ds as [|c ds IH]; [reflexivity|].
      rewrite app_cons. now rewrite IH. }
    rewrite Hds. specialize (Hne ltac:(discriminate)).
    destruct (strtol_digits ds Hne F) as [-> _].
    assert (V' : digits_value 0 ds = z).
    { specialize (V 0 ""). rewrite <- E, Hds in V. rewrite V.
      cbn [digits_value]. lia. }
    rewrite V'. rewrite C by lia. repeat split.
    + now apply (string_forall_no_NUL isdigit).
    + exact Hne.
Qed.

(** ** exit, fg, bg and jobs *)

(** X18.  [exit n], with [n] written in decimal and in the range of [int],
    records [n] in [params.status] and ends the process with it, touching
    nothing else; [exit] alone ends the process with the status already
    there. *)
Theorem builtin_exit_status
    (cmd : command) (redir_list : list builtin_redir) (st : shell)
    (w0 : string) (n : Z) :
  - 2 ^ 31 <= n < 2 ^ 31 ->
  words cmd = [w0; decimal n] ->
  builtin_exit cmd redir_list st = (Exits n, with_params_status n st) /\
  builtin_exit (Command [w0]) redir_list st
  = (Exits (params_status st), with_params_status (params_status st) st).
Proof.
  intros R Hw. split; [|reflexivity].
  apply word_count_two in Hw as [W A].
  rewrite (builtin_exit_one_arg _ _ _ W), A.
  destruct (strtol_decimal n) as (S & C & Hne);
    [unfold LONG_MIN, LONG_MAX; lia|].
  assert (T : negb (Ascii.eqb (char_at (decimal n) (snd (strtol (decimal n))))
                      NUL)
              || Ascii.eqb (char_at (decimal n) (snd (strtol (decimal n))))
                   (char_at (decimal n) 0) = false).
  { apply (exit_test_integer _ C), strtol_whole. split; [exact Hne|].
    now rewrite S. }
  rewrite T, S. cbn [fst].
  assert (I : int_of_long n = n).
  { unfold int_of_long. rewrite Z.mod_small; lia. }
  now rewrite I.
Qed.

Lemma builtin_exit_status_witness :
  builtin_exit (Command ["exit"; decimal (-7)]) [] (boot ∅)
  = (Exits (-7), with_params_status (-7) (boot ∅)) /\
  builtin_exit (Command ["exit"]) [] (boot ∅)
  = (Exits (params_status (boot ∅)),
     with_params_status (params_status (boot ∅)) (boot ∅)).
Proof.
  apply (builtin_exit_status (Command ["exit"; decimal (-7)]) [] (boot ∅)
           "exit" (-7)).
  - lia.
  - reflexivity.
Defined.






(** X21.  [bg] signals on success only, and only a group: either it returns
    0 having sent exactly one [SIGCONT], to minus the process group of some
    job whose group resolves, and written nothing; or it returns -1 having
    sent no signal.  With no argument and no job it returns -1 without a
    word, where [fg] says "No jobs". *)
Theorem builtin_bg_outcomes
    (cmd : command) (redir_list : list builtin_redir) (st : shell) :
  (word_count cmd = 1 -> joblist st = [] ->
   builtin_bg cmd redir_list st = (-1, st)) /\
  ((exists job_id,
      0 <= fst (jobs_get_pgid job_id st) /\
      builtin_bg cmd redir_list st =
      (0, with_sig_log
            (sig_log st ++ [(- fst (jobs_get_pgid job_id st), SIGCONT)]) st))
   \/
   (fst (builtin_bg cmd redir_list st) = -1 /\
    sig_log (snd (builtin_bg cmd redir_list st)) = sig_log st)).
Proof.
  split.
  { intros W J. unfold builtin_bg, jobs_get_joblist_size. rewrite W.
    change (1 =? 1) with true. cbv iota. run. rewrite J. reflexivity. }
  destruct (builtin_bg cmd redir_list st) as [rc st'] eqn:B. cbn [fst snd].
  assert (K : forall job_id,
            (do pgid <- jobs_get_pgid job_id;
             if pgid <? 0 then
               modify (with_errno EINVAL) ;;
               do e <- gets errno;
               dprintf (get_pseudo_fd redir_list STDERR_FILENO)
                       ("bg: " ++ strerror e)%string ;;
               ret (-1)
             else kill (- pgid) SIGCONT ;; ret 0) st = (rc, st') ->
            (exists job_id0,
               0 <= fst (jobs_get_pgid job_id0 st) /\
               (rc, st') =
               (0, with_sig_log
                     (sig_log st
                      ++ [(- fst (jobs_get_pgid job_id0 st), SIGCONT)]) st))
            \/ (rc = -1 /\ sig_log st' = sig_log st)).
  { intros job_id H. unfold bind at 1 in H.
    destruct (jobs_get_pgid job_id st) as [pg s'] eqn:J.
    assert (s' = st) by (unfold jobs_get_pgid, gets in J; congruence).
    subst s'. destruct (pg <? 0) eqn:Q.
    - right. cbv [bind modify gets dprintf ret] in H.
      injection H as <- <-. split; reflexivity.
    - left. exists job_id. rewrite J. cbn [fst]. apply Z.ltb_ge in Q.
      split; [exact Q|]. cbv [bind kill modify ret] in H. now rewrite <- H. }
  unfold builtin_bg in B. unfold jobs_get_joblist_size, jobs_get_joblist in B.
  destruct (word_count cmd =? 1).
  - destruct (joblist st) as [|j rest] eqn:J.
    + right. run. rewrite J in B. injection B as <- <-. split; reflexivity.
    + run. rewrite J in B. cbn [length Nat.eqb] in B. exact (K _ B).
  - destruct (word_count cmd =? 2).
    + destruct (strtol (word cmd 1)) as [val endp].
      destruct (_ || _).
      * right. cbv [bind dprintf modify ret] in B. injection B as <- <-.
        split; reflexivity.
      * run. exact (K _ B).
    + right. cbv [bind dprintf modify ret] in B. injection B as <- <-.
      split; reflexivity.
Qed.

Lemma builtin_bg_outcomes_witness :
  builtin_bg (Command ["bg"]) [] (boot ∅) = (-1, boot ∅).
Proof.
  apply (proj1 (builtin_bg_outcomes (Command ["bg"]) [] (boot ∅)));
    reflexivity.
Defined.

Lemma get_pseudo_fd_cases redir_list fd :
  get_pseudo_fd redir_list fd = -1 \/
  get_pseudo_fd redir_list fd = fd \/
  exists r, In r redir_list /\ pseudofd r = fd /\
            get_pseudo_fd redir_list fd = realfd r.
Proof.
  induction redir_list as [|r l IH]; cbn [get_pseudo_fd]; [now right; left|].
  destruct (realfd r =? fd); [now left|].
  destruct (pseudofd r =? fd) eqn:P.
  - right. right. exists r. apply Z.eqb_eq in P. cbn. auto.
  - destruct IH as [?|[?|(x & ? & ? & ?)]]; auto.
    right. right. exists x. cbn. auto.
Qed.

(** X22.  The shim answers -1, the descriptor asked for, or the real
    descriptor of a pair of the list whose pseudo-descriptor is the one asked
    for; it never makes up a descriptor. *)
Theorem get_pseudo_fd_range (redir_list : list builtin_redir) (fd : Z) :
  get_pseudo_fd redir_list fd = -1 \/
  get_pseudo_fd redir_list fd = fd \/
  exists r, In r redir_list /\ pseudofd r = fd /\
            get_pseudo_fd redir_list fd = realfd r.
Proof. apply get_pseudo_fd_cases. Qed.



(** ** More on export and cd *)

(** X24.  [vars_export] of one name, whether it succeeds or fails, leaves
    every other name as it reads. *)
Theorem vars_export_other (name : option string) (M : string) (st : shell) :
  name <> Some M ->
  fst (vars_get (Some M) (snd (vars_export name st)))
  = fst (vars_get (Some M) st).
Proof.
  intros Hne. destruct name as [N|]; [|now apply vars_get_ext].
  destruct (Z.eq_dec (vars_is_valid_varname N) 0) as [Z0|Z1].
  - unfold vars_export. unfold vars_is_valid_varname in Z0. rewrite Z0.
    now apply vars_get_ext.
  - destruct (vars_export (Some N) st) as [rc st'] eqn:S.
    apply (vars_export_effect _ _ _ _ Z1) in S as [O _].
    assert (NM : M <> N) by congruence.
    destruct (O M NM). now apply vars_get_same.
Qed.

Lemma vars_export_other_witness :
  fst (vars_get (Some "x") (snd (vars_export (Some "y") private_x)))
  = fst (vars_get (Some "x") private_x).
Proof.
  apply (vars_export_other (Some "y") "x" private_x). discriminate.
Defined.

(** X25.  Exporting does not change what a variable reads as, for a name
    that has no record yet or whose record is private and holds a value: after
    a successful [vars_export], [vars_get] answers as it did before. *)
Theorem vars_export_keeps_value (N : string) (st s1 : shell) :
  vars_is_valid_varname N <> 0 ->
  match record_of N st with
  | Some r => var_export r = false /\ is_Some (var_value r)
  | None => True
  end ->
  vars_export (Some N) st = (0, s1) ->
  fst (vars_get (Some N) s1) = fst (vars_get (Some N) st).
Proof.
  intros Hv P E.
  apply (vars_export_effect _ _ _ _ Hv) in E
    as [_ [([=] & _)|(r1 & Hr1 & R1 & C)]].
  rewrite !(vars_get_record _ _ Hv), R1. cbn [var_export].
  destruct (record_of N st) as [r|].
  - subst r1. destruct P as [X [W HW]]. rewrite X, HW in *.
    destruct C as [(_ & ->)|([=] & _)]. apply lookup_insert_eq.
  - subst r1. cbn in C. destruct C as [_ ->]. reflexivity.
Qed.

Lemma vars_export_keeps_value_witness :
  fst (vars_get (Some "x") (snd (vars_export (Some "x") private_x)))
  = fst (vars_get (Some "x") private_x).
Proof.
  apply (vars_export_keeps_value "x" private_x).
  - vm_compute. discriminate.
  - split; [reflexivity | eexists; reflexivity].
  - reflexivity.
Defined.

(** X26.  When [builtin_cd] gets as far as [chdir] and [chdir] succeeds, the
    builtin returns 0, the working directory is the one the file system
    gives for the target, and [PWD] reads as the target text itself, as it
    was typed or found in [HOME], not as the directory reached. *)
Theorem builtin_cd_success_pwd
    (cmd : command) (redir_list : list builtin_redir) (st s1 : shell)
    (target d : string) :
  cd_reaches_chdir cmd st target s1 ->
  fs s1 !! (cwd s1, target) = Some d ->
  fst (builtin_cd cmd redir_list st) = 0 /\
  cwd (snd (builtin_cd cmd redir_list st)) = d /\
  fst (vars_get (Some "PWD") (snd (builtin_cd cmd redir_list st)))
  = Some target.
Proof.
  intros R F.
  destruct (builtin_cd_reaches _ redir_list _ _ _ R) as [G ->].
  cbn [fst snd]. unfold chdir. rewrite F. cbn [snd].
  repeat split. rewrite <- G. apply vars_get_ext; reflexivity.
Qed.

Lemma builtin_cd_success_pwd_witness :
  fst (builtin_cd (Command ["cd"; "src"]) []
         (Shell [] ∅ 0 0 [] "/home/u" {[ ("/home/u", "src") := "/home/u/src" ]}
                [] [] [])) = 0 /\
  cwd (snd (builtin_cd (Command ["cd"; "src"]) []
         (Shell [] ∅ 0 0 [] "/home/u" {[ ("/home/u", "src") := "/home/u/src" ]}
                [] [] []))) = "/home/u/src" /\
  fst (vars_get (Some "PWD")
         (snd (builtin_cd (Command ["cd"; "src"]) []
            (Shell [] ∅ 0 0 [] "/home/u"
                   {[ ("/home/u", "src") := "/home/u/src" ]} [] [] []))))
  = Some "src".
Proof.
  apply (builtin_cd_success_pwd (Command ["cd"; "src"]) []
           (Shell [] ∅ 0 0 [] "/home/u"
                  {[ ("/home/u", "src") := "/home/u/src" ]} [] [] [])
           (snd (vars_set (Some "PWD") (Some "src")
                   (Shell [] ∅ 0 0 [] "/home/u"
                      {[ ("/home/u", "src") := "/home/u/src" ]} [] [] [])))).
  - right. repeat split; try reflexivity. vm_compute. discriminate.
  - reflexivity.
Defined.
